(** * Read-path fan-out and merge of the distributor (pkg/distributor/query.go)

    A shallow embedding of the sample merger ([mergeSamples], [sameSamples]),
    of the two result aggregators ([queryIngesters], [queryIngesterStream])
    and of the replica selector ([GetIngestersForQuery]), followed by the
    properties of the specification that concern them. *)

From Stdlib Require Import ZArith Floats.SpecFloat.
From stdpp Require Import gmap strings list sorting.

Open Scope Z_scope.

(** ** Go values *)

(** [ingester_client.Sample]: a float64 value and an int64 timestamp in
    milliseconds.  Timestamps are only ever compared, so the int64 range plays
    no role and [Z] stands for it.  The float64 is an IEEE-754 datum: Go's
    [==] on it is [SFeqb], under which a NaN differs from itself and the two
    zeros are equal. *)
Record Sample := mkSample { Value : spec_float; TimestampMs : Z }.

(** Go's [==] on the struct: field by field. *)
Definition Sample_eqb (x y : Sample) : bool :=
  SFeqb (Value x) (Value y) && (TimestampMs x =? TimestampMs y).

(** The float64 values 1.0, 2.0 and 3.0 of the examples. *)
Definition f1 : spec_float := S754_finite false 4503599627370496 (-52).
Definition f2 : spec_float := S754_finite false 4503599627370496 (-51).
Definition f3 : spec_float := S754_finite false 6755399441055744 (-51).

(** ** Outcomes of Go code

    A call returns normally, or panics (index or slice bound out of range).
    Loops are run with fuel; [OutOfFuel] is the outcome of a run whose fuel did
    not suffice.  A normal return carries the number of sequences the call
    constructed with [make], the allocation counter of the specification. *)
Inductive outcome (A : Type) : Type :=
  | Ok (x : A) (allocs : nat)
  | Panic
  | OutOfFuel.
Arguments Ok {A} x allocs.
Arguments Panic {A}.
Arguments OutOfFuel {A}.

Definition ret {A} (x : A) : outcome A := Ok x 0%nat.

Definition bind {A B} (m : outcome A) (f : A → outcome B) : outcome B :=
  match m with
  | Ok x n =>
      match f x with
      | Ok y k => Ok y (n + k)%nat
      | Panic => Panic
      | OutOfFuel => OutOfFuel
      end
  | Panic => Panic
  | OutOfFuel => OutOfFuel
  end.

Notation "x <- m ;; k" := (bind m (fun x => k))
  (at level 100, m at next level, right associativity, only parsing).

(** [s[i]]: panics when [i] is out of range. *)
Definition index {A} (s : list A) (i : nat) : outcome A :=
  match s !! i with
  | Some x => ret x
  | None => Panic
  end.

(** [s[i:]]: panics when [i] exceeds [len(s)]. *)
Definition slice_from {A} (s : list A) (i : nat) : outcome (list A) :=
  if decide (i ≤ length s)%nat then ret (drop i s) else Panic.

(** [make([]T, 0, n)]: one fresh, empty sequence. *)
Definition make {A} (cap : nat) : outcome (list A) := Ok [] 1%nat.

(** [m] returns [x] normally, whatever it allocated. *)
Definition returns {A} (m : outcome A) (x : A) : Prop := ∃ n, m = Ok x n.

(** ** SampleMerger *)

(** The loop of [sameSamples]: [for i := 0; i < len(a); i++]. *)
Fixpoint sameLoop (fuel : nat) (a b : list Sample) (i : nat) : outcome bool :=
  match fuel with
  | O => OutOfFuel
  | S fuel =>
      if bool_decide (i < length a)%nat then
        ai <- index a i ;;
        bi <- index b i ;;
        if negb (Sample_eqb ai bi) then ret false
        else sameLoop fuel a b (S i)
      else ret true
  end.

Definition sameSamples (a b : list Sample) : outcome bool :=
  if negb (bool_decide (length a = length b)) then ret false
  else sameLoop (S (length a)) a b 0.

(** The loop of [mergeSamples]: [for i < len(a) && j < len(b)], with the
    state [(i, j, result)]. *)
Fixpoint mergeLoop (fuel : nat) (a b : list Sample) (i j : nat)
    (result : list Sample) : outcome (nat * nat * list Sample) :=
  match fuel with
  | O => OutOfFuel
  | S fuel =>
      if bool_decide (i < length a)%nat && bool_decide (j < length b)%nat then
        ai <- index a i ;;
        bj <- index b j ;;
        if TimestampMs ai <? TimestampMs bj then
          mergeLoop fuel a b (S i) j (result ++ [ai])
        else if TimestampMs ai >? TimestampMs bj then
          mergeLoop fuel a b i (S j) (result ++ [bj])
        else
          mergeLoop fuel a b (S i) (S j) (result ++ [ai])
      else ret (i, j, result)
  end.

Definition mergeSamples (a b : list Sample) : outcome (list Sample) :=
  same <- sameSamples a b ;;
  if same then ret a
  else
    result <- make (length a + length b) ;;
    st <- mergeLoop (S (length a + length b)) a b 0 0 result ;;
    let '(i, j, result) := st in
    ra <- slice_from a i ;;
    rb <- slice_from b j ;;
    ret ((result ++ ra) ++ rb).

(** *** Reference functions on lists

    What the two loops compute, by structural recursion; the loops are shown
    to agree with them below. *)
Fixpoint same_elems (a b : list Sample) : bool :=
  match a, b with
  | x :: a, y :: b => Sample_eqb x y && same_elems a b
  | _, _ => true
  end.

Definition same_samples (a b : list Sample) : bool :=
  bool_decide (length a = length b) && same_elems a b.

Fixpoint merge_lists (a : list Sample) : list Sample → list Sample :=
  fix merge_a (b : list Sample) : list Sample :=
    match a, b with
    | [], _ => b
    | _, [] => a
    | x :: a', y :: b' =>
        if TimestampMs x <? TimestampMs y then x :: merge_lists a' b
        else if TimestampMs x >? TimestampMs y then y :: merge_a b'
        else x :: merge_lists a' b'
    end.

(** The contents of the sequence [mergeSamples] returns. *)
Definition merged (a b : list Sample) : list Sample :=
  if same_samples a b then a else merge_lists a b.

(** Go's [==] holds of every pair of corresponding samples. *)
Definition go_equal (a b : list Sample) : Prop :=
  Forall2 (λ x y, Sample_eqb x y = true) a b.

(** Timestamps, as a list and as a set. *)
Definition timestamps (s : list Sample) : list Z := TimestampMs <$> s.
Definition timestamp_set (s : list Sample) : gset Z := list_to_set (timestamps s).

(** A valid sample series: strictly increasing in timestamp. *)
Definition strictly_increasing (s : list Sample) : Prop :=
  StronglySorted Z.lt (timestamps s).

(** ** ResultAggregator: data *)

(** A Go slice is either nil or a sequence; [Samples] of a [TimeSeries] is
    tested against nil by the streaming aggregator. *)
Definition slice (A : Type) : Type := option (list A).
Definition elems {A} (s : slice A) : list A := default [] s.

(** [ingester_client.LabelAdapter]: a label name and its value. *)
Record LabelAdapter := mkLabel { LabelName : string; LabelValue : string }.

(** [ingester_client.Chunk]: an opaque payload, its encoding tag and the time
    range it covers. *)
Record Chunk := mkChunk {
  StartTimestampMs : Z;
  EndTimestampMs : Z;
  Encoding : Z;
  Data : list Byte.byte
}.

(** [ingester_client.TimeSeriesChunk] and [ingester_client.TimeSeries], with
    the fields the aggregator reads and writes. *)
Record TimeSeriesChunk := mkTimeSeriesChunk {
  ChunkLabels : list LabelAdapter;
  Chunks : list Chunk
}.

Record TimeSeries := mkTimeSeries {
  Labels : list LabelAdapter;
  Samples : slice Sample
}.

Record QueryStreamResponse := mkQueryStreamResponse {
  Chunkseries : list TimeSeriesChunk;
  Timeseries : list TimeSeries
}.

(** [client.LabelsToKeyString (client.FromLabelAdaptersToLabels ls)]: the
    canonical string key of a label set.  The two functions live in the client
    package; the aggregator only needs that the key is a function of the
    labels. *)
Class SeriesKey := LabelsToKeyString : list LabelAdapter → string.

(** The timestamps of a time-series entry. *)
Definition series_timestamps (series : TimeSeries) : gset Z :=
  timestamp_set (elems (Samples series)).

(** The zero values a Go map lookup yields for an absent key. *)
Definition zeroTimeSeriesChunk : TimeSeriesChunk := mkTimeSeriesChunk [] [].
Definition zeroTimeSeries : TimeSeries := mkTimeSeries [] None.

(** [for _, x := range xs] over a slice, threading the loop's state. *)
Fixpoint for_range {A S} (body : S → A → outcome S) (st : S) (xs : list A)
    : outcome S :=
  match xs with
  | [] => ret st
  | x :: xs => st' <- body st x ;; for_range body st' xs
  end.

(** [for _, v := range m] over a Go map visits the entries in an unspecified
    order: [order] is one order in which [m] may be visited. *)
Definition map_range `{Countable K} {V} (m : gmap K V) (order : list (K * V)) : Prop :=
  order ≡ₚ map_to_list m.

(** ** ResultAggregator: streaming variant (queryIngesterStream) *)

Section stream.
Context `{SeriesKey}.

(** Body of the loop over [response.Chunkseries]. *)
Definition chunkseries_step (hashToChunkseries : gmap string TimeSeriesChunk)
    (series : TimeSeriesChunk) : gmap string TimeSeriesChunk :=
  let key := LabelsToKeyString (ChunkLabels series) in
  let existing := default zeroTimeSeriesChunk (hashToChunkseries !! key) in
  let existing := mkTimeSeriesChunk (ChunkLabels series) (Chunks existing) in
  let existing :=
    mkTimeSeriesChunk (ChunkLabels existing) (Chunks existing ++ Chunks series) in
  <[key := existing]> hashToChunkseries.

(** Body of the loop over [response.Timeseries]. *)
Definition timeseries_step (hashToTimeSeries : gmap string TimeSeries)
    (series : TimeSeries) : outcome (gmap string TimeSeries) :=
  let key := LabelsToKeyString (Labels series) in
  let existing := default zeroTimeSeries (hashToTimeSeries !! key) in
  let existing := mkTimeSeries (Labels series) (Samples existing) in
  existing <-
    match Samples existing with
    | None => ret (mkTimeSeries (Labels existing) (Samples series))
    | Some es =>
        merged <- mergeSamples es (elems (Samples series)) ;;
        ret (mkTimeSeries (Labels existing) (Some merged))
    end ;;
  ret (<[key := existing]> hashToTimeSeries).

(** Body of the loop over [results]. *)
Definition response_step
    (st : gmap string TimeSeriesChunk * gmap string TimeSeries)
    (response : QueryStreamResponse)
    : outcome (gmap string TimeSeriesChunk * gmap string TimeSeries) :=
  hashToChunkseries <-
    for_range (λ m series, ret (chunkseries_step m series)) st.1
      (Chunkseries response) ;;
  hashToTimeSeries <- for_range timeseries_step st.2 (Timeseries response) ;;
  ret (hashToChunkseries, hashToTimeSeries).

(** The two maps after all replica results have been folded in. *)
Definition mergeResponses (results : list QueryStreamResponse)
    : outcome (gmap string TimeSeriesChunk * gmap string TimeSeries) :=
  for_range response_step (∅, ∅) results.

(** The aggregation of [queryIngesterStream]: [results] is what the fan-out
    returned, [resp] a response the function may return for it. *)
Definition queryIngesterStream (results : list QueryStreamResponse)
    (resp : QueryStreamResponse) : Prop :=
  ∃ hashToChunkseries hashToTimeSeries n oc ot,
    mergeResponses results = Ok (hashToChunkseries, hashToTimeSeries) n ∧
    map_range hashToChunkseries oc ∧
    map_range hashToTimeSeries ot ∧
    resp = mkQueryStreamResponse oc.*2 ot.*2.

(** What one iteration over [response.Timeseries] leaves in the map; the
    loop body is shown to return it. *)
Definition timeseries_merge (hashToTimeSeries : gmap string TimeSeries)
    (series : TimeSeries) : gmap string TimeSeries :=
  let key := LabelsToKeyString (Labels series) in
  let samples :=
    match Samples (default zeroTimeSeries (hashToTimeSeries !! key)) with
    | None => Samples series
    | Some es => Some (merged es (elems (Samples series)))
    end in
  <[key := mkTimeSeries (Labels series) samples]> hashToTimeSeries.

(** All chunk-series, resp. time-series, of the replica results, in the
    order in which the loops visit them. *)
Definition all_chunkseries (results : list QueryStreamResponse) : list TimeSeriesChunk :=
  results ≫= Chunkseries.
Definition all_timeseries (results : list QueryStreamResponse) : list TimeSeries :=
  results ≫= Timeseries.

(** The entries contributed under a given key. *)
Definition chunkseries_of (key : string) (l : list TimeSeriesChunk) : list TimeSeriesChunk :=
  filter (λ s, LabelsToKeyString (ChunkLabels s) = key) l.
Definition timeseries_of (key : string) (l : list TimeSeries) : list TimeSeries :=
  filter (λ s, LabelsToKeyString (Labels s) = key) l.

(** Every entry of a map sits under the key of its own labels. *)
Definition keyed_chunkseries (cs : gmap string TimeSeriesChunk) : Prop :=
  map_Forall (λ key e, LabelsToKeyString (ChunkLabels e) = key) cs.
Definition keyed_timeseries (ts : gmap string TimeSeries) : Prop :=
  map_Forall (λ key e, LabelsToKeyString (Labels e) = key) ts.
End stream.

(** ** ResultAggregator: batch variant (queryIngesters) *)

(** What the batch aggregator takes from other packages: Prometheus' metric
    type with its fingerprint (a uint64), the sample pair type, and
    [util.MergeSampleSets], which it calls to merge two value sequences. *)
Class BatchModel := {
  Metric : Type;
  Fingerprint : Metric → N;
  SamplePair : Type;
  MergeSampleSets : list SamplePair → list SamplePair → list SamplePair
}.

Section batch.
Context `{BatchModel}.

(** [model.SampleStream]. *)
Record SampleStream := mkSampleStream {
  StreamMetric : Metric;
  Values : list SamplePair
}.

(** Body of the loop over one replica's matrix.  The map holds pointers;
    the update through [mss] is the update of the entry. *)
Definition matrix_step (fpToSampleStream : gmap N SampleStream)
    (ss : SampleStream) : gmap N SampleStream :=
  let fp := Fingerprint (StreamMetric ss) in
  let mss :=
    match fpToSampleStream !! fp with
    | Some mss => mss
    | None => mkSampleStream (StreamMetric ss) []
    end in
  <[fp := mkSampleStream (StreamMetric mss) (MergeSampleSets (Values mss) (Values ss))]>
    fpToSampleStream.

(** The map after all replica results have been folded in. *)
Definition mergeMatrices (results : list (list SampleStream)) : gmap N SampleStream :=
  foldl (foldl matrix_step) ∅ results.

(** The aggregation of [queryIngesters]: [result] is a matrix the function
    may return for the replica results [results]. *)
Definition queryIngesters (results : list (list SampleStream))
    (result : list SampleStream) : Prop :=
  ∃ order, map_range (mergeMatrices results) order ∧ result = order.*2.

(** Every entry of the map sits under the fingerprint of its own metric. *)
Definition keyed_streams (m : gmap N SampleStream) : Prop :=
  map_Forall (λ fp mss, Fingerprint (StreamMetric mss) = fp) m.

(** The fingerprints of a list of sample streams. *)
Definition fingerprints (l : list SampleStream) : list N :=
  (Fingerprint ∘ StreamMetric) <$> l.
End batch.

(** ** ReplicaSelector (GetIngestersForQuery) *)

(** [labels.MatchType] and [labels.Matcher]. *)
Inductive MatchType := MatchEqual | MatchNotEqual | MatchRegexp | MatchNotRegexp.

Record Matcher := mkMatcher {
  MatcherType : MatchType;
  MatcherName : string;
  MatcherValue : string
}.

(** [ring.Operation]. *)
Inductive Operation := Read | Write | Reporting.

(** A Go result pair [(T, error)]. *)
Inductive result (E A : Type) : Type :=
  | Success (x : A)
  | Failure (err : E).
Arguments Success {E A} x.
Arguments Failure {E A} err.

(** The distributor's configuration, as far as the selector reads it.
    [ShuffleShardingLookbackPeriod] is a [time.Duration], a signed count of
    nanoseconds. *)
Record Config := mkConfig {
  ShardingStrategy : string;
  ShuffleShardingLookbackPeriod : Z;
  ShardByAllLabels : bool
}.

(** The collaborators of the selector: tenant resolution from the request
    context, the per-tenant limits, the ring interface ([ring.ReadRing]), the
    metric-name extraction of [pkg/util/extract] and the shard key of the
    distributor.  [MetricNameMatcherFromMatchers] yields the matcher it found,
    or nothing when its [ok] result is false. *)
Class Collaborators := {
  Context_ : Type;
  error : Type;
  ReplicationSet : Type;
  ReadRing : Type;
  Limits : Type;
  ExtractOrgID : Context_ → result error string;
  ShardingStrategyShuffle : string;
  IngestionTenantShardSize : Limits → string → Z;
  MetricNameMatcherFromMatchers : list Matcher → option Matcher;
  shardByMetricName : string → string → N;
  Get : ReadRing → N → Operation → result error ReplicationSet;
  GetReplicationSetForOperation : ReadRing → Operation → result error ReplicationSet;
  ShuffleShardWithLookback : ReadRing → string → Z → Z → Z → ReadRing
}.

Section selector.
Context `{Collaborators}.

Record Distributor := mkDistributor {
  cfg : Config;
  limits : Limits;
  ingestersRing : ReadRing
}.

(** The two guarded blocks of the function return early when they apply
    and fall through ([None]) otherwise.  [now] is the reading of
    [time.Now()]. *)
Definition shuffleShardBlock (d : Distributor) (userID : string) (now : Z)
    : option (result error ReplicationSet) :=
  if bool_decide (ShardingStrategy (cfg d) = ShardingStrategyShuffle) then
    let shardSize := IngestionTenantShardSize (limits d) userID in
    let lookbackPeriod := ShuffleShardingLookbackPeriod (cfg d) in
    if (shardSize >? 0) && (lookbackPeriod >? 0) then
      Some (GetReplicationSetForOperation
              (ShuffleShardWithLookback (ingestersRing d) userID shardSize
                 lookbackPeriod now)
              Read)
    else None
  else None.

Definition metricNameBlock (d : Distributor) (userID : string)
    (matchers : list Matcher) : option (result error ReplicationSet) :=
  if negb (ShardByAllLabels (cfg d)) then
    match MetricNameMatcherFromMatchers matchers with
    | Some metricNameMatcher =>
        match MatcherType metricNameMatcher with
        | MatchEqual =>
            Some (Get (ingestersRing d)
                    (shardByMetricName userID (MatcherValue metricNameMatcher))
                    Read)
        | _ => None
        end
    | None => None
    end
  else None.

Definition GetIngestersForQuery (d : Distributor) (ctx : Context_) (now : Z)
    (matchers : list Matcher) : result error ReplicationSet :=
  match ExtractOrgID ctx with
  | Failure err => Failure err
  | Success userID =>
      match shuffleShardBlock d userID now with
      | Some r => r
      | None =>
          match metricNameBlock d userID matchers with
          | Some r => r
          | None => GetReplicationSetForOperation (ingestersRing d) Read
          end
      end
  end.
End selector.

(** *** The matcher condition of the selection rule *)

Global Instance MatchType_eq_dec : EqDecision MatchType.
Proof. solve_decision. Defined.




(** ** Concrete collaborators and data for the examples *)

(** A key function: the labels written out in order. *)
Definition example_key : SeriesKey := λ ls,
  foldr (λ l acc, LabelName l +:+ "=" +:+ LabelValue l +:+ ";" +:+ acc) "" ls.

(** A batch model over the same labels, with a short fingerprint and, for
    [util.MergeSampleSets], the sample merger, through which the
    specification has the batch aggregator fold the series. *)
Definition example_batch : BatchModel := {|
  Metric := list LabelAdapter;
  Fingerprint := λ m, N.of_nat (String.length (example_key m));
  SamplePair := Sample;
  MergeSampleSets := merged
|}.

Definition up_labels : list LabelAdapter := [mkLabel "__name__" "up"].
Definition chunkA : Chunk := mkChunk 0 100 0 [].
Definition chunkB : Chunk := mkChunk 100 200 0 [].

(** Two replicas that answer for the same series and disagree on the value
    at timestamp 100. *)
Definition replicaA : QueryStreamResponse :=
  mkQueryStreamResponse
    [mkTimeSeriesChunk up_labels [chunkA]]
    [mkTimeSeries up_labels (Some [mkSample f1 100])].
Definition replicaB : QueryStreamResponse :=
  mkQueryStreamResponse
    [mkTimeSeriesChunk up_labels [chunkB]]
    [mkTimeSeries up_labels (Some [mkSample f2 100])].

(** Responses the streaming aggregator may return for the two replicas, in
    either order of arrival. *)
Definition response_AB : QueryStreamResponse :=
  mkQueryStreamResponse
    [mkTimeSeriesChunk up_labels [chunkA; chunkB]]
    [mkTimeSeries up_labels (Some [mkSample f1 100])].

(** The same two answers in the batch protocol. *)
Definition matrixA : list (@SampleStream example_batch) :=
  [mkSampleStream (H:=example_batch) up_labels [mkSample f1 100]].
Definition matrixB : list (@SampleStream example_batch) :=
  [mkSampleStream (H:=example_batch) up_labels [mkSample f2 100]].

(** Collaborators for the selector: the context carries the tenant or
    nothing, a ring is the list of its replicas, a shuffle shard is a prefix of
    it, a key selects one replica, and the metric-name matcher is the first
    matcher on the label [__name__]. *)
Definition example_collaborators : Collaborators := {|
  Context_ := option string;
  error := string;
  ReplicationSet := list nat;
  ReadRing := list nat;
  Limits := string → Z;
  ExtractOrgID := λ ctx,
    match ctx with Some userID => Success userID | None => Failure "no org id" end;
  ShardingStrategyShuffle := "shuffle-sharding";
  IngestionTenantShardSize := λ l userID, l userID;
  MetricNameMatcherFromMatchers := λ matchers,
    head (filter (λ m, MatcherName m = "__name__") matchers);
  shardByMetricName := λ userID name,
    N.of_nat (String.length userID + String.length name);
  Get := λ r key op, Success (take 1 (rotate (N.to_nat key) r));
  GetReplicationSetForOperation := λ r op, Success r;
  ShuffleShardWithLookback := λ r userID size lookback now, take (Z.to_nat size) r
|}.

(** Distributors over a ring of three replicas: shuffle sharding with a shard
    of two; sharding by metric name; sharding by all labels. *)
Definition distributor_shuffle : @Distributor example_collaborators :=
  mkDistributor (H:=example_collaborators)
    (mkConfig "shuffle-sharding" 3600000000000 true) (λ _, 2) [1; 2; 3]%nat.
Definition distributor_by_name : @Distributor example_collaborators :=
  mkDistributor (H:=example_collaborators)
    (mkConfig "default" 0 false) (λ _, 0) [1; 2; 3]%nat.
Definition distributor_all_labels : @Distributor example_collaborators :=
  mkDistributor (H:=example_collaborators)
    (mkConfig "default" 0 true) (λ _, 0) [1; 2; 3]%nat.

Definition name_is_up : Matcher := mkMatcher MatchEqual "__name__" "up".

(** ** Further definitions for the merger *)

(** The general path of [mergeSamples]: the body of the function after the
    fast-path test. *)
Definition mergeSamplesGeneral (a b : list Sample) : outcome (list Sample) :=
  result <- make (length a + length b) ;;
  st <- mergeLoop (S (length a + length b)) a b 0 0 result ;;
  let '(i, j, result) := st in
  ra <- slice_from a i ;;
  rb <- slice_from b j ;;
  ret ((result ++ ra) ++ rb).

(** Two series agree when samples with one timestamp are one sample. *)
Definition agree (a b : list Sample) : Prop :=
  ∀ sa sb, sa ∈ a → sb ∈ b → TimestampMs sa = TimestampMs sb → sa = sb.

(** The N-way fold of the merger: the series are merged into the
    accumulator one after the other, as the aggregators do for the series
    that arrive under one key. *)
Definition mergeAll (series : list (list Sample)) : outcome (list Sample) :=
  for_range mergeSamples [] series.

(** The sample sequences of a list of time-series. *)
Definition samples_of (l : list TimeSeries) : list (list Sample) :=
  (elems ∘ Samples) <$> l.

(** Series that are valid and agree with each other pairwise. *)
Definition consistent (series : list (list Sample)) : Prop :=
  Forall strictly_increasing series ∧
  ∀ a b, a ∈ series → b ∈ series → agree a b.

(** The replica results are consistent: every time-series is valid and any
    two time-series with one key agree on the samples at shared timestamps. *)
Definition replicas_consistent `{SeriesKey} (results : list QueryStreamResponse) : Prop :=
  Forall strictly_increasing (samples_of (all_timeseries results)) ∧
  ∀ c d, c ∈ all_timeseries results → d ∈ all_timeseries results →
    LabelsToKeyString (Labels c) = LabelsToKeyString (Labels d) →
    agree (elems (Samples c)) (elems (Samples d)).

(** Two replicas that hold overlapping parts of one series and agree where
    they overlap, and the response for them. *)
Definition replicaC : QueryStreamResponse :=
  mkQueryStreamResponse []
    [mkTimeSeries up_labels (Some [mkSample f1 100; mkSample f2 200])].
Definition replicaD : QueryStreamResponse :=
  mkQueryStreamResponse []
    [mkTimeSeries up_labels (Some [mkSample f2 200; mkSample f3 300])].
Definition response_CD : QueryStreamResponse :=
  mkQueryStreamResponse []
    [mkTimeSeries up_labels
       (Some [mkSample f1 100; mkSample f2 200; mkSample f3 300])].

(** ** ReplicaSelector for metadata (GetIngestersForMetadata) *)

(** The function repeats the shuffle-sharding block of
    [GetIngestersForQuery] and has no metric-name block. *)
Definition GetIngestersForMetadata `{Collaborators} (d : Distributor)
    (ctx : Context_) (now : Z) : result error ReplicationSet :=
  match ExtractOrgID ctx with
  | Failure err => Failure err
  | Success userID =>
      match shuffleShardBlock d userID now with
      | Some r => r
      | None => GetReplicationSetForOperation (ingestersRing d) Read
      end
  end.

(** ** The per-replica callbacks of the fan-out *)

(** What the callbacks take from elsewhere: the request and response types
    of the batch call, the conversion [ingester_client.FromQueryResponse] of
    a response to a matrix, the errors of the transport and the test
    [grpc_util.IsGRPCContextCanceled] on them. *)
Class FanoutModel `{BatchModel} := {
  QueryRequest : Type;
  QueryResponse : Type;
  transport_error : Type;
  FromQueryResponse : QueryResponse → list SampleStream;
  IsGRPCContextCanceled : transport_error → bool
}.

Section callbacks.
Context `{FanoutModel}.

(** A stream as the callback sees it: the messages that [Recv] yields, in
    order, and what ends them, [io.EOF] ([None]) or an error. *)
Record Stream := mkStream {
  messages : list QueryStreamResponse;
  terminal : option transport_error
}.

(** [ingester_client.IngesterClient], with the two calls the callbacks make. *)
Record IngesterClient := mkIngesterClient {
  Query : QueryRequest → result transport_error QueryResponse;
  QueryStream : QueryRequest → result transport_error Stream
}.

(** The counter vectors [ingesterQueries] and [ingesterQueryFailures], by
    ingester address. *)
Record Counters := mkCounters {
  ingesterQueries : gmap string nat;
  ingesterQueryFailures : gmap string nat
}.

Definition count (c : gmap string nat) (addr : string) : nat :=
  default 0%nat (c !! addr).

(** [vec.WithLabelValues(addr).Inc()]. *)
Definition Inc (addr : string) (c : gmap string nat) : gmap string nat :=
  <[addr := S (count c addr)]> c.

Definition incQueries (addr : string) (c : Counters) : Counters :=
  mkCounters (Inc addr (ingesterQueries c)) (ingesterQueryFailures c).
Definition incFailures (addr : string) (c : Counters) : Counters :=
  mkCounters (ingesterQueries c) (Inc addr (ingesterQueryFailures c)).

(** The callback of [queryIngesters], for the ingester at [addr];
    [GetClientFor] is the lookup of the client pool. *)
Definition queryCallback
    (GetClientFor : string → result transport_error IngesterClient)
    (req : QueryRequest) (addr : string) (c : Counters)
    : result transport_error (list SampleStream) * Counters :=
  match GetClientFor addr with
  | Failure err => (Failure err, c)
  | Success client =>
      let resp := Query client req in
      let c := incQueries addr c in
      match resp with
      | Failure err => (Failure err, incFailures addr c)
      | Success resp => (Success (FromQueryResponse resp), c)
      end
  end.

(** The receive loop of the callback of [queryIngesterStream]; [res] is the
    response under construction ([result] in the source). *)
Fixpoint recvLoop (msgs : list QueryStreamResponse)
    (term : option transport_error) (res : QueryStreamResponse)
    (addr : string) (c : Counters)
    : result transport_error QueryStreamResponse * Counters :=
  match msgs with
  | resp :: msgs =>
      recvLoop msgs term
        (mkQueryStreamResponse
           (Chunkseries res ++ Chunkseries resp)
           (Timeseries res ++ Timeseries resp))
        addr c
  | [] =>
      match term with
      | None => (Success res, c)
      | Some err =>
          (Failure err,
           if negb (IsGRPCContextCanceled err) then incFailures addr c else c)
      end
  end.

(** The callback of [queryIngesterStream], for the ingester at [addr]. *)
Definition queryStreamCallback
    (GetClientFor : string → result transport_error IngesterClient)
    (req : QueryRequest) (addr : string) (c : Counters)
    : result transport_error QueryStreamResponse * Counters :=
  match GetClientFor addr with
  | Failure err => (Failure err, c)
  | Success client =>
      let c := incQueries addr c in
      match QueryStream client req with
      | Failure err => (Failure err, incFailures addr c)
      | Success stream =>
          recvLoop (messages stream) (terminal stream)
            (mkQueryStreamResponse [] []) addr c
      end
  end.

(** No ingester has more failed queries on record than queries. *)
Definition counters_ok (c : Counters) : Prop :=
  ∀ addr, (count (ingesterQueryFailures c) addr ≤ count (ingesterQueries c) addr)%nat.
End callbacks.

(** The change a callback for the ingester at [addr] may make to the
    counters: other ingesters are untouched, the query counter moves by at
    most one and the failure counter by no more than the query counter; a
    successful call counts one query and no failure. *)
Definition accounted `{FanoutModel} (addr : string) (c c' : Counters)
    (succeeded : bool) : Prop :=
  (∀ a, a ≠ addr →
     count (ingesterQueries c') a = count (ingesterQueries c) a ∧
     count (ingesterQueryFailures c') a = count (ingesterQueryFailures c) a) ∧
  ∃ dq df : nat,
    count (ingesterQueries c') addr = (count (ingesterQueries c) addr + dq)%nat ∧
    count (ingesterQueryFailures c') addr
      = (count (ingesterQueryFailures c) addr + df)%nat ∧
    (df ≤ dq)%nat ∧ (dq ≤ 1)%nat ∧
    (succeeded = true → dq = 1%nat ∧ df = 0%nat).

Definition is_success {E A} (r : result E A) : bool :=
  match r with Success _ => true | Failure _ => false end.

(** A fan-out model for the examples: errors are strings, a batch response
    is a matrix already, and one client serves every address with the two
    example replicas as the messages of its stream. *)
Definition example_fanout : @FanoutModel example_batch := {|
  QueryRequest := unit;
  QueryResponse := list (@SampleStream example_batch);
  transport_error := string;
  FromQueryResponse := λ resp, resp;
  IsGRPCContextCanceled := λ err, bool_decide (err = "context canceled")
|}.

Definition example_stream : @Stream example_batch example_fanout :=
  mkStream (H0:=example_fanout) [replicaA; replicaB] None.
Definition broken_stream : @Stream example_batch example_fanout :=
  mkStream (H0:=example_fanout) [replicaA; replicaB] (Some "connection reset").
Definition example_client : @IngesterClient example_batch example_fanout :=
  mkIngesterClient (H0:=example_fanout)
    (λ _, Success matrixA) (λ _, Success example_stream).
Definition broken_client : @IngesterClient example_batch example_fanout :=
  mkIngesterClient (H0:=example_fanout)
    (λ _, Failure "connection reset") (λ _, Success broken_stream).
Definition no_counts : @Counters := mkCounters ∅ ∅.

(** ** Further data for the order of arrival *)


(** A replica that answers for two series, and the two orders in which the
    aggregators may emit them. *)
Definition down_labels : list LabelAdapter := [mkLabel "__name__" "down"].
Definition replicaE : QueryStreamResponse :=
  mkQueryStreamResponse
    [mkTimeSeriesChunk up_labels [chunkA]; mkTimeSeriesChunk down_labels [chunkB]]
    [mkTimeSeries up_labels (Some [mkSample f1 100]);
     mkTimeSeries down_labels (Some [mkSample f2 100])].
Definition replicaE_swapped : QueryStreamResponse :=
  mkQueryStreamResponse
    [mkTimeSeriesChunk down_labels [chunkB]; mkTimeSeriesChunk up_labels [chunkA]]
    [mkTimeSeries down_labels (Some [mkSample f2 100]);
     mkTimeSeries up_labels (Some [mkSample f1 100])].

(** * Properties *)

(** ** The loops of the merger agree with the reference functions *)

Lemma index_lookup {A} (s : list A) (i : nat) (x : A) :
  s !! i = Some x → index s i = Ok x 0%nat.
Proof. unfold index. by intros ->. Qed.

Lemma merge_lists_nil_l (b : list Sample) : merge_lists [] b = b.
Proof. by destruct b. Qed.

Lemma merge_lists_nil_r (a : list Sample) : merge_lists a [] = a.
Proof. by destruct a. Qed.

Lemma merge_lists_cons (x y : Sample) (a b : list Sample) :
  merge_lists (x :: a) (y :: b) =
    if TimestampMs x <? TimestampMs y then x :: merge_lists a (y :: b)
    else if TimestampMs x >? TimestampMs y then y :: merge_lists (x :: a) b
    else x :: merge_lists a b.
Proof. reflexivity. Qed.

Lemma sameLoop_spec (fuel : nat) (a b : list Sample) (i : nat) :
  length a = length b → (i ≤ length a)%nat → (length a - i < fuel)%nat →
  sameLoop fuel a b i = Ok (same_elems (drop i a) (drop i b)) 0%nat.
Proof.
  intros Hlen. revert i.
  induction fuel as [|fuel IH]; intros i Hi Hfuel; [lia|].
  simpl. case_bool_decide as Hlt.
  - destruct (lookup_lt_is_Some_2 a i Hlt) as [x Hx].
    destruct (lookup_lt_is_Some_2 b i ltac:(lia)) as [y Hy].
    rewrite (index_lookup _ _ _ Hx), (index_lookup _ _ _ Hy).
    rewrite (drop_S _ _ _ Hx), (drop_S _ _ _ Hy). simpl.
    destruct (Sample_eqb x y); simpl; [|done].
    rewrite IH by lia. done.
  - rewrite drop_ge by lia. done.
Qed.

Lemma sameSamples_spec (a b : list Sample) :
  sameSamples a b = Ok (same_samples a b) 0%nat.
Proof.
  unfold sameSamples, same_samples.
  case_bool_decide as Hlen; cbn [negb andb]; [|done].
  rewrite sameLoop_spec by (done || lia). done.
Qed.

Lemma mergeLoop_spec (fuel : nat) (a b : list Sample) (i j : nat)
    (result : list Sample) :
  (i ≤ length a)%nat → (j ≤ length b)%nat →
  ((length a - i) + (length b - j) < fuel)%nat →
  ∃ i' j' result',
    mergeLoop fuel a b i j result = Ok (i', j', result') 0%nat ∧
    (i' ≤ length a)%nat ∧ (j' ≤ length b)%nat ∧
    (result' ++ drop i' a) ++ drop j' b
      = result ++ merge_lists (drop i a) (drop j b).
Proof.
  revert i j result.
  induction fuel as [|fuel IH]; intros i j result Hi Hj Hfuel; [lia|].
  simpl. case_bool_decide as Hia; simpl.
  - case_bool_decide as Hjb; simpl.
    + destruct (lookup_lt_is_Some_2 a i Hia) as [x Hx].
      destruct (lookup_lt_is_Some_2 b j Hjb) as [y Hy].
      rewrite (index_lookup _ _ _ Hx), (index_lookup _ _ _ Hy).
      rewrite (drop_S _ _ _ Hx), (drop_S _ _ _ Hy), merge_lists_cons.
      simpl. destruct (TimestampMs x <? TimestampMs y).
      { destruct (IH (S i) j (result ++ [x])) as (i'&j'&r'&->&?&?&Heq); [lia..|].
        exists i', j', r'. rewrite Heq, (drop_S _ _ _ Hy), <-(assoc_L (++)). done. }
      destruct (TimestampMs x >? TimestampMs y).
      { destruct (IH i (S j) (result ++ [y])) as (i'&j'&r'&->&?&?&Heq); [lia..|].
        exists i', j', r'. rewrite Heq, (drop_S _ _ _ Hx), <-(assoc_L (++)). done. }
      destruct (IH (S i) (S j) (result ++ [x])) as (i'&j'&r'&->&?&?&Heq); [lia..|].
      exists i', j', r'. rewrite Heq, <-(assoc_L (++)). done.
    + exists i, j, result. rewrite (drop_ge b j) by lia.
      rewrite merge_lists_nil_r, app_nil_r. done.
  - exists i, j, result. rewrite (drop_ge a i) by lia.
    rewrite merge_lists_nil_l, app_nil_r. done.
Qed.

(** [mergeSamples] always returns: the first sequence itself, with nothing
    allocated, on the fast path; one fresh sequence holding the two-pointer
    merge otherwise. *)
Lemma mergeSamples_spec (a b : list Sample) :
  mergeSamples a b =
    if same_samples a b then Ok a 0%nat else Ok (merge_lists a b) 1%nat.
Proof.
  unfold mergeSamples. rewrite sameSamples_spec. simpl.
  destruct (same_samples a b); [done|].
  destruct (mergeLoop_spec (S (length a + length b)) a b 0 0 [])
    as (i&j&r&Hloop&Hi&Hj&Heq); [lia..|].
  unfold make. simpl in *. rewrite Hloop. simpl.
  unfold slice_from. rewrite !decide_True by done. simpl.
  rewrite Heq. done.
Qed.

(** ** The two-pointer merge on lists *)

Lemma elem_of_merge_lists_l (s : Sample) (a b : list Sample) :
  s ∈ a → s ∈ merge_lists a b.
Proof.
  revert b. induction a as [|x a IHa]; intros b; [by intros ?%elem_of_nil|].
  induction b as [|y b IHb]; [done|].
  rewrite merge_lists_cons. intros Hs.
  destruct (TimestampMs x <? TimestampMs y);
    [|destruct (TimestampMs x >? TimestampMs y)].
  - apply elem_of_cons in Hs as [->|Hs]; [left|right; by apply IHa].
  - right. by apply IHb.
  - apply elem_of_cons in Hs as [->|Hs]; [left|right; by apply IHa].
Qed.

Lemma elem_of_merge_lists_inv (s : Sample) (a b : list Sample) :
  s ∈ merge_lists a b → s ∈ a ∨ s ∈ b.
Proof.
  revert b. induction a as [|x a IHa]; intros b.
  { rewrite merge_lists_nil_l. by right. }
  induction b as [|y b IHb]; [by left|].
  rewrite merge_lists_cons.
  destruct (TimestampMs x <? TimestampMs y);
    [|destruct (TimestampMs x >? TimestampMs y)];
    intros [->|Hs]%elem_of_cons.
  - left; left.
  - apply IHa in Hs as [?|?]; [left; by right|by right].
  - right; left.
  - apply IHb in Hs as [?|?]; [by left|right; by right].
  - left; left.
  - apply IHa in Hs as [?|?]; [left; by right|right; by right].
Qed.

(** Nothing is lost and nothing is invented, on any two inputs: a sample of
    [b] is dropped only on a tie, where the sample of [a] with the same
    timestamp is kept. *)
Lemma timestamp_set_merge_lists (a b : list Sample) :
  timestamp_set (merge_lists a b) = timestamp_set a ∪ timestamp_set b.
Proof.
  unfold timestamp_set, timestamps.
  revert b. induction a as [|x a IHa]; intros b.
  { rewrite merge_lists_nil_l. set_solver. }
  induction b as [|y b IHb]; [set_solver|].
  rewrite merge_lists_cons.
  destruct (Z.ltb_spec (TimestampMs x) (TimestampMs y)) as [Hlt|Hge].
  { rewrite !fmap_cons, !list_to_set_cons, IHa. set_solver. }
  destruct (Z.gtb_spec (TimestampMs x) (TimestampMs y)) as [Hgt|Hle].
  { rewrite fmap_cons, list_to_set_cons, IHb. set_solver. }
  assert (TimestampMs x = TimestampMs y) as Heq by lia.
  rewrite !fmap_cons, !list_to_set_cons, IHa, Heq. set_solver.
Qed.

Lemma strictly_increasing_cons (x : Sample) (s : list Sample) :
  strictly_increasing (x :: s) ↔
    (∀ y, y ∈ s → TimestampMs x < TimestampMs y) ∧ strictly_increasing s.
Proof.
  unfold strictly_increasing, timestamps. rewrite fmap_cons, StronglySorted_cons.
  rewrite Forall_fmap, Forall_forall. done.
Qed.

Lemma merge_lists_increasing (a b : list Sample) :
  strictly_increasing a → strictly_increasing b →
  strictly_increasing (merge_lists a b).
Proof.
  revert b. induction a as [|x a IHa]; intros b Ha Hb.
  { by rewrite merge_lists_nil_l. }
  induction b as [|y b IHb]; [done|].
  pose proof Ha as [Hxa Ha']%strictly_increasing_cons.
  pose proof Hb as [Hyb Hb']%strictly_increasing_cons.
  rewrite merge_lists_cons.
  destruct (Z.ltb_spec (TimestampMs x) (TimestampMs y)) as [Hlt|Hge].
  { apply strictly_increasing_cons. split; [|by apply IHa].
    intros z [Hz|[->|Hz]%elem_of_cons]%elem_of_merge_lists_inv; [by apply Hxa|done|].
    specialize (Hyb z Hz). lia. }
  destruct (Z.gtb_spec (TimestampMs x) (TimestampMs y)) as [Hgt|Hle].
  { apply strictly_increasing_cons. split; [|by apply IHb].
    intros z [[->|Hz]%elem_of_cons|Hz]%elem_of_merge_lists_inv; [lia| |by apply Hyb].
    specialize (Hxa z Hz). lia. }
  apply strictly_increasing_cons. split; [|by apply IHa].
  intros z [Hz|Hz]%elem_of_merge_lists_inv; [by apply Hxa|].
  specialize (Hyb z Hz). lia.
Qed.

Lemma filter_none {A} (P : A → Prop) `{∀ x, Decision (P x)} (l : list A) :
  (∀ x, x ∈ l → ¬ P x) → filter P l = [].
Proof.
  induction l as [|x l IH]; [done|]. intros Hl.
  rewrite filter_cons_False by (apply Hl; left).
  apply IH. intros y Hy. apply Hl. by right.
Qed.

(** In a strictly increasing series a timestamp selects one sample. *)
Lemma filter_timestamp_increasing (s : Sample) (r : list Sample) :
  strictly_increasing r → s ∈ r →
  filter (λ x, TimestampMs x = TimestampMs s) r = [s].
Proof.
  induction r as [|x r IH]; [by intros _ ?%elem_of_nil|].
  intros [Hx Hr]%strictly_increasing_cons Hs.
  assert (s ∈ r → TimestampMs x ≠ TimestampMs s) as Hne.
  { intros Hin. specialize (Hx s Hin). lia. }
  apply elem_of_cons in Hs as [->|Hs].
  - rewrite filter_cons_True by done. f_equal.
    apply filter_none. intros z Hz. specialize (Hx z Hz). lia.
  - rewrite filter_cons_False by auto. auto.
Qed.

(** ** The fast-path test *)

Lemma same_elems_timestamps (a b : list Sample) :
  length a = length b → same_elems a b = true → timestamps a = timestamps b.
Proof.
  revert b. induction a as [|x a IH]; intros [|y b] Hlen; try done.
  simpl. intros [[_ Ht%Z.eqb_eq]%andb_prop Hab]%andb_prop.
  unfold timestamps. simpl. rewrite Ht. f_equal. apply IH; [|done].
  simpl in Hlen. lia.
Qed.

Lemma same_samples_timestamps (a b : list Sample) :
  same_samples a b = true → timestamps a = timestamps b.
Proof.
  unfold same_samples. intros [Hlen%bool_decide_eq_true Hab]%andb_prop.
  by apply same_elems_timestamps.
Qed.

Lemma same_samples_go_equal (a b : list Sample) :
  same_samples a b = true ↔ go_equal a b.
Proof.
  unfold same_samples, go_equal. split.
  - intros [Hlen%bool_decide_eq_true Hab]%andb_prop. revert b Hlen Hab.
    induction a as [|x a IH]; intros [|y b] Hlen; try done.
    simpl. intros [Hxy Hab]%andb_prop. constructor; [done|].
    apply IH; [simpl in Hlen; lia|done].
  - intros Hab. apply andb_true_intro. split.
    + apply bool_decide_eq_true. by eapply Forall2_length.
    + induction Hab as [|x y a b Hxy _ IH]; [done|]. simpl. by rewrite Hxy, IH.
Qed.

Lemma SFeqb_refl (v : spec_float) : v ≠ S754_nan → SFeqb v v = true.
Proof.
  unfold SFeqb. destruct v as [s|s| |s m e]; simpl; try done.
  - by destruct s.
  - intros _. rewrite Z.compare_refl, Pos.compare_cont_refl. by destruct s.
Qed.

Lemma go_equal_refl (x : list Sample) :
  Forall (λ s, Value s ≠ S754_nan) x → go_equal x x.
Proof.
  unfold go_equal. induction 1 as [|s x Hs _ IH]; constructor; [|done].
  unfold Sample_eqb. rewrite SFeqb_refl, Z.eqb_refl by done. done.
Qed.

(** Two-pointer merge of a series with itself: every step is a tie. *)
Lemma merge_lists_diag (x : list Sample) : merge_lists x x = x.
Proof.
  induction x as [|s x IH]; [done|].
  rewrite merge_lists_cons, Z.ltb_irrefl, Z.gtb_ltb, Z.ltb_irrefl. by rewrite IH.
Qed.

(** ** SampleMerger: the claims *)

(** The end-to-end example of the specification: replica A holds
    [(100,1),(200,2)], replica B holds [(200,2),(300,3)]. *)
Example mergeSamples_end_to_end :
  mergeSamples [mkSample f1 100; mkSample f2 200] [mkSample f2 200; mkSample f3 300]
  = Ok [mkSample f1 100; mkSample f2 200; mkSample f3 300] 1%nat.
Proof. reflexivity. Qed.

(** C1 (completeness).  For strictly increasing [a] and [b], [mergeSamples a b]
    returns a series whose set of timestamps is the union of the timestamps
    of [a] and of [b]. *)
Theorem mergeSamples_timestamps (a b : list Sample) :
  strictly_increasing a → strictly_increasing b →
  ∃ r, returns (mergeSamples a b) r ∧
       timestamp_set r = timestamp_set a ∪ timestamp_set b.
Proof.
  intros _ _. rewrite mergeSamples_spec.
  destruct (same_samples a b) eqn:Hsame.
  - exists a. split; [by exists 0%nat|].
    unfold timestamp_set. rewrite <-(same_samples_timestamps a b Hsame).
    by rewrite (idemp_L (∪)).
  - exists (merge_lists a b). split; [by exists 1%nat|].
    apply timestamp_set_merge_lists.
Qed.

Lemma mergeSamples_timestamps_witness :
  ∃ r, returns (mergeSamples [mkSample f1 100; mkSample f2 200]
                             [mkSample f2 200; mkSample f3 300]) r ∧
       timestamp_set r
       = timestamp_set [mkSample f1 100; mkSample f2 200]
         ∪ timestamp_set [mkSample f2 200; mkSample f3 300].
Proof.
  apply mergeSamples_timestamps; unfold strictly_increasing; simpl;
    repeat constructor; lia.
Defined.

(** C2 (ordering).  For strictly increasing [a] and [b], [mergeSamples a b]
    returns a series that is strictly increasing in timestamp. *)
Theorem mergeSamples_increasing (a b : list Sample) :
  strictly_increasing a → strictly_increasing b →
  ∃ r, returns (mergeSamples a b) r ∧ strictly_increasing r.
Proof.
  intros Ha Hb. rewrite mergeSamples_spec. destruct (same_samples a b).
  - exists a. split; [by exists 0%nat|done].
  - exists (merge_lists a b). split; [by exists 1%nat|].
    by apply merge_lists_increasing.
Qed.

Lemma mergeSamples_increasing_witness :
  ∃ r, returns (mergeSamples [mkSample f1 100; mkSample f2 200]
                             [mkSample f2 200; mkSample f3 300]) r ∧
       strictly_increasing r.
Proof.
  apply mergeSamples_increasing; unfold strictly_increasing; simpl;
    repeat constructor; lia.
Defined.

(** C3 (tie-break).  For strictly increasing [a] and [b] and samples [sa] of
    [a] and [sb] of [b] with one timestamp, the series [mergeSamples a b]
    returns holds at that timestamp exactly the sample [sa], once; the sample
    [sb], when it differs from [sa], is not in it.  In particular
    Merge([(100,1.0)], [(100,2.0)]) = [(100,1.0)]. *)
Theorem mergeSamples_tie_left (a b : list Sample) (sa sb : Sample) :
  strictly_increasing a → strictly_increasing b →
  sa ∈ a → sb ∈ b → TimestampMs sa = TimestampMs sb →
  (∃ r, returns (mergeSamples a b) r ∧
        filter (λ s, TimestampMs s = TimestampMs sa) r = [sa] ∧
        (sb ≠ sa → sb ∉ r)) ∧
  returns (mergeSamples [mkSample f1 100] [mkSample f2 100]) [mkSample f1 100].
Proof.
  intros Ha Hb Hsa Hsb Ht. split; [|by exists 1%nat].
  assert (∃ r, returns (mergeSamples a b) r ∧ strictly_increasing r ∧ sa ∈ r)
    as (r & Hr & Hinc & Hin).
  { rewrite mergeSamples_spec. destruct (same_samples a b).
    - exists a. split; [by exists 0%nat|done].
    - exists (merge_lists a b). split; [by exists 1%nat|].
      split; [by apply merge_lists_increasing|by apply elem_of_merge_lists_l]. }
  exists r. split; [done|].
  pose proof (filter_timestamp_increasing sa r Hinc Hin) as Hf.
  split; [done|]. intros Hne Hsbr.
  assert (sb ∈ filter (λ s, TimestampMs s = TimestampMs sa) r) as Hsbf.
  { apply list_elem_of_filter. done. }
  rewrite Hf in Hsbf. by apply list_elem_of_singleton in Hsbf.
Qed.

Lemma mergeSamples_tie_left_witness :
  (∃ r, returns (mergeSamples [mkSample f1 100; mkSample f2 200]
                              [mkSample f3 200; mkSample f3 300]) r ∧
        filter (λ s, TimestampMs s = 200) r = [mkSample f2 200] ∧
        (mkSample f3 200 ≠ mkSample f2 200 → mkSample f3 200 ∉ r)) ∧
  returns (mergeSamples [mkSample f1 100] [mkSample f2 100]) [mkSample f1 100].
Proof.
  apply (mergeSamples_tie_left
           [mkSample f1 100; mkSample f2 200] [mkSample f3 200; mkSample f3 300]
           (mkSample f2 200) (mkSample f3 200)).
  - unfold strictly_increasing; simpl; repeat constructor; lia.
  - unfold strictly_increasing; simpl; repeat constructor; lia.
  - right; left.
  - left.
  - reflexivity.
Defined.

(** C4 (fast path, amended).  When [a] and [b] have the same length and Go's
    [==] holds of the samples at every position, [mergeSamples a b] returns
    [a] itself and constructs no sequence; this is the case of a series
    without NaN values merged with itself.  For every series [x], NaN or not,
    [mergeSamples x x] returns a series with the contents of [x]. *)
Theorem mergeSamples_fast_path (a b x : list Sample) :
  (go_equal a b → mergeSamples a b = Ok a 0%nat) ∧
  (Forall (λ s, Value s ≠ S754_nan) x → mergeSamples x x = Ok x 0%nat) ∧
  returns (mergeSamples x x) x.
Proof.
  split; [|split].
  - intros Hab%same_samples_go_equal. by rewrite mergeSamples_spec, Hab.
  - intros Hx%go_equal_refl%same_samples_go_equal.
    by rewrite mergeSamples_spec, Hx.
  - rewrite mergeSamples_spec. destruct (same_samples x x); [by exists 0%nat|].
    rewrite merge_lists_diag. by exists 1%nat.
Qed.

Lemma mergeSamples_fast_path_witness :
  mergeSamples [mkSample (S754_zero false) 100] [mkSample (S754_zero true) 100]
    = Ok [mkSample (S754_zero false) 100] 0%nat ∧
  mergeSamples [mkSample f1 100; mkSample f2 200] [mkSample f1 100; mkSample f2 200]
    = Ok [mkSample f1 100; mkSample f2 200] 0%nat.
Proof.
  split.
  - apply (mergeSamples_fast_path _ _ []). repeat constructor.
  - apply (mergeSamples_fast_path [] []). repeat constructor; discriminate.
Defined.

(** C4, as stated, fails on a series that holds a NaN: it is element-wise
    identical to itself, yet Go's [==] does not hold of a NaN and itself, the
    fast path is not taken and a new sequence is constructed. *)
Lemma mergeSamples_nan_not_fast_path :
  mergeSamples [mkSample S754_nan 100] [mkSample S754_nan 100]
    = Ok [mkSample S754_nan 100] 1%nat ∧
  mergeSamples [mkSample S754_nan 100] [mkSample S754_nan 100]
    ≠ Ok [mkSample S754_nan 100] 0%nat.
Proof. split; [reflexivity|discriminate]. Qed.

(** C9 (amended).  [mergeSamples] returns normally on every pair of inputs,
    whether or not they are strictly increasing: it never panics, its loops
    terminate, and nothing checks the precondition. *)
Theorem mergeSamples_total (a b : list Sample) :
  ∃ r, returns (mergeSamples a b) r.
Proof.
  rewrite mergeSamples_spec. destruct (same_samples a b).
  - exists a. by exists 0%nat.
  - exists (merge_lists a b). by exists 1%nat.
Qed.

(** C9, as stated, fails on an unsorted input: the merge returns normally, and
    what it returns is not sorted. *)
Lemma mergeSamples_unsorted_silent :
  ¬ strictly_increasing [mkSample f2 200; mkSample f1 100] ∧
  mergeSamples [mkSample f2 200; mkSample f1 100] [mkSample f3 150]
    = Ok [mkSample f3 150; mkSample f2 200; mkSample f1 100] 1%nat ∧
  ¬ strictly_increasing [mkSample f3 150; mkSample f2 200; mkSample f1 100].
Proof.
  split; [|split; [reflexivity|]].
  - intros [Hx _]%strictly_increasing_cons.
    specialize (Hx (mkSample f1 100) ltac:(left)). simpl in Hx. lia.
  - intros [_ [Hx _]%strictly_increasing_cons]%strictly_increasing_cons.
    specialize (Hx (mkSample f1 100) ltac:(left)). simpl in Hx. lia.
Qed.

(** C10 (empty sequence).  [mergeSamples a []] returns the contents of [a]
    and [mergeSamples [] b] returns the contents of [b]. *)
Theorem mergeSamples_empty (a b : list Sample) :
  returns (mergeSamples a []) a ∧ returns (mergeSamples [] b) b.
Proof.
  split; rewrite mergeSamples_spec.
  - destruct (same_samples a []); [by exists 0%nat|].
    rewrite merge_lists_nil_r. by exists 1%nat.
  - destruct (same_samples [] b) eqn:Hsame.
    + apply andb_prop in Hsame as [Hlen%bool_decide_eq_true _].
      destruct b; [by exists 0%nat|done].
    + rewrite merge_lists_nil_l. by exists 1%nat.
Qed.

(** ** Loops that cannot fail *)

Lemma mergeSamples_merged (a b : list Sample) :
  ∃ n, mergeSamples a b = Ok (merged a b) n.
Proof.
  rewrite mergeSamples_spec. unfold merged. destruct (same_samples a b); eauto.
Qed.

Lemma timestamp_set_merged (a b : list Sample) :
  timestamp_set (merged a b) = timestamp_set a ∪ timestamp_set b.
Proof.
  unfold merged. destruct (same_samples a b) eqn:Hsame.
  - unfold timestamp_set. rewrite <-(same_samples_timestamps a b Hsame).
    by rewrite (idemp_L (∪)).
  - apply timestamp_set_merge_lists.
Qed.

Lemma for_range_total {A S} (body : S → A → outcome S) (f : S → A → S) :
  (∀ st x, ∃ n, body st x = Ok (f st x) n) →
  ∀ st xs, ∃ n, for_range body st xs = Ok (foldl f st xs) n.
Proof.
  intros Hbody st xs. revert st.
  induction xs as [|x xs IH]; intros st; simpl; [by exists 0%nat|].
  destruct (Hbody st x) as [n Hn]. destruct (IH (f st x)) as [k Hk].
  exists (n + k)%nat. rewrite Hn. simpl. by rewrite Hk.
Qed.

Section stream_facts.
Context `{SeriesKey}.

Lemma timeseries_step_merge (m : gmap string TimeSeries) (series : TimeSeries) :
  ∃ n, timeseries_step m series = Ok (timeseries_merge m series) n.
Proof.
  unfold timeseries_step, timeseries_merge. simpl.
  destruct (Samples (default zeroTimeSeries (m !! LabelsToKeyString (Labels series))))
    as [es|]; simpl; [|eauto].
  destruct (mergeSamples_merged es (elems (Samples series))) as [n ->].
  simpl. eauto.
Qed.

(** The state after the loop over [results]: each map is the fold of its
    step over all the series of its class, in order of arrival. *)
Lemma mergeResponses_fold (results : list QueryStreamResponse) :
  ∃ n, mergeResponses results =
         Ok (foldl chunkseries_step ∅ (all_chunkseries results),
             foldl timeseries_merge ∅ (all_timeseries results)) n.
Proof.
  unfold mergeResponses, all_chunkseries, all_timeseries.
  generalize (∅ : gmap string TimeSeriesChunk) (∅ : gmap string TimeSeries).
  induction results as [|r results IH]; intros cs ts; simpl; [by exists 0%nat|].
  unfold response_step at 1. simpl.
  destruct (for_range_total (λ m series, ret (chunkseries_step m series))
              chunkseries_step (λ m s, ex_intro _ 0%nat eq_refl) cs (Chunkseries r))
    as [n1 ->].
  destruct (for_range_total timeseries_step timeseries_merge
              timeseries_step_merge ts (Timeseries r)) as [n2 ->].
  simpl. rewrite !foldl_app.
  destruct (IH (foldl chunkseries_step cs (Chunkseries r))
               (foldl timeseries_merge ts (Timeseries r))) as [n3 ->].
  eauto.
Qed.
End stream_facts.

(** ** What the streaming aggregator holds under a key *)

Section stream_maps.
Context `{SeriesKey}.

Implicit Types (key : string) (cs : gmap string TimeSeriesChunk)
  (ts : gmap string TimeSeries).

Lemma chunkseries_step_keyed cs series :
  keyed_chunkseries cs → keyed_chunkseries (chunkseries_step cs series).
Proof. intros Hcs. unfold chunkseries_step. by apply map_Forall_insert_2. Qed.

Lemma chunkseries_fold_keyed cs l :
  keyed_chunkseries cs → keyed_chunkseries (foldl chunkseries_step cs l).
Proof.
  revert cs. induction l as [|s l IH]; intros cs Hcs; simpl; [done|].
  by apply IH, chunkseries_step_keyed.
Qed.

Lemma timeseries_merge_keyed ts series :
  keyed_timeseries ts → keyed_timeseries (timeseries_merge ts series).
Proof. intros Hts. unfold timeseries_merge. by apply map_Forall_insert_2. Qed.

Lemma timeseries_fold_keyed ts l :
  keyed_timeseries ts → keyed_timeseries (foldl timeseries_merge ts l).
Proof.
  revert ts. induction l as [|s l IH]; intros ts Hts; simpl; [done|].
  by apply IH, timeseries_merge_keyed.
Qed.

(** Chunks are appended, in order of arrival. *)
Lemma chunkseries_step_chunks cs series key :
  Chunks (default zeroTimeSeriesChunk (chunkseries_step cs series !! key)) =
    Chunks (default zeroTimeSeriesChunk (cs !! key)) ++
    (if decide (LabelsToKeyString (ChunkLabels series) = key)
     then Chunks series else []).
Proof.
  unfold chunkseries_step. case_decide as Hkey.
  - subst key. by rewrite lookup_insert_eq.
  - rewrite lookup_insert_ne by done. by rewrite app_nil_r.
Qed.

Lemma chunkseries_fold_chunks cs l key :
  Chunks (default zeroTimeSeriesChunk (foldl chunkseries_step cs l !! key)) =
    Chunks (default zeroTimeSeriesChunk (cs !! key)) ++
    mjoin (Chunks <$> chunkseries_of key l).
Proof.
  unfold chunkseries_of. revert cs.
  induction l as [|s l IH]; intros cs; simpl; [by rewrite app_nil_r|].
  rewrite IH, chunkseries_step_chunks, filter_cons.
  case_decide; simpl; by rewrite <-?(assoc_L (++)), ?app_nil_r.
Qed.

Lemma chunkseries_fold_is_Some cs l key :
  is_Some (foldl chunkseries_step cs l !! key) ↔
    is_Some (cs !! key) ∨ chunkseries_of key l ≠ [].
Proof.
  unfold chunkseries_of. revert cs.
  induction l as [|s l IH]; intros cs; simpl; [naive_solver|].
  rewrite IH, filter_cons. unfold chunkseries_step at 1.
  case_decide as Hkey.
  - subst key. rewrite lookup_insert_eq. split; [by right|intros _; left; eauto].
  - by rewrite lookup_insert_ne.
Qed.

(** Samples are merged, and the timestamps under a key accumulate. *)
Lemma timeseries_merge_timestamps ts series key :
  series_timestamps (default zeroTimeSeries (timeseries_merge ts series !! key)) =
    series_timestamps (default zeroTimeSeries (ts !! key)) ∪
    (if decide (LabelsToKeyString (Labels series) = key)
     then series_timestamps series else ∅).
Proof.
  unfold timeseries_merge. case_decide as Hkey.
  - subst key. rewrite lookup_insert_eq. unfold series_timestamps. simpl.
    destruct (Samples (default zeroTimeSeries (ts !! _))) as [es|]; simpl.
    + apply timestamp_set_merged.
    + unfold timestamp_set at 2. simpl. by rewrite (left_id_L ∅ (∪)).
  - rewrite lookup_insert_ne by done. by rewrite (right_id_L ∅ (∪)).
Qed.

Lemma timeseries_fold_timestamps ts l key :
  series_timestamps (default zeroTimeSeries (foldl timeseries_merge ts l !! key)) =
    series_timestamps (default zeroTimeSeries (ts !! key)) ∪
    ⋃ (series_timestamps <$> timeseries_of key l).
Proof.
  unfold timeseries_of. revert ts.
  induction l as [|s l IH]; intros ts; simpl; [by rewrite (right_id_L ∅ (∪))|].
  rewrite IH, timeseries_merge_timestamps, filter_cons.
  case_decide; simpl;
    [by rewrite (assoc_L (∪))|by rewrite (right_id_L ∅ (∪))].
Qed.

End stream_maps.

(** ** Ranging over a map *)

Section map_range_facts.
Context `{Countable K} {V : Type}.
Implicit Types (m : gmap K V) (order : list (K * V)).

Lemma map_range_map_to_list m : map_range m (map_to_list m).
Proof. unfold map_range. done. Qed.

Lemma map_range_elem_of m order (e : V) :
  map_range m order → e ∈ order.*2 ↔ ∃ k, m !! k = Some e.
Proof.
  unfold map_range. intros ->. rewrite list_elem_of_fmap. split.
  - intros ([k e'] & -> & Hin%elem_of_map_to_list). by exists k.
  - intros [k Hk%elem_of_map_to_list]. by exists (k, e).
Qed.


Lemma map_range_NoDup m order : map_range m order → NoDup order.*1.
Proof. unfold map_range. intros ->. apply NoDup_fst_map_to_list. Qed.

(** When every entry sits under the key [keyf] gives it, the keys of the
    values visited are the keys of the map. *)
Lemma map_range_keys m order (keyf : V → K) :
  map_range m order → map_Forall (λ k e, keyf e = k) m →
  keyf <$> order.*2 = order.*1.
Proof.
  unfold map_range. intros Hperm Hm.
  assert (Forall (λ ke, keyf ke.2 = ke.1) order) as Hall.
  { apply Forall_forall. intros [k e] Hin. rewrite Hperm in Hin.
    apply elem_of_map_to_list in Hin. by apply Hm in Hin. }
  clear Hperm. induction Hall as [|[k e] order Hke _ IH]; [done|].
  rewrite !fmap_cons. simpl in Hke |- *. by rewrite Hke, IH.
Qed.
End map_range_facts.

Lemma concat_mjoin {A} (ls : list (list A)) : concat ls = mjoin ls.
Proof. induction ls as [|l ls IH]; [done|]. simpl. by rewrite IH. Qed.

(** ** The streaming aggregator's output *)

Section stream_output.
Context `{SeriesKey}.

Lemma queryIngesterStream_inv results resp :
  queryIngesterStream results resp →
  ∃ oc ot,
    map_range (foldl chunkseries_step ∅ (all_chunkseries results)) oc ∧
    map_range (foldl timeseries_merge ∅ (all_timeseries results)) ot ∧
    resp = mkQueryStreamResponse oc.*2 ot.*2.
Proof.
  intros (cs & ts & n & oc & ot & Hm & Hoc & Hot & ->).
  destruct (mergeResponses_fold results) as [k Hfold].
  rewrite Hfold in Hm. injection Hm as <- <- _. by exists oc, ot.
Qed.

Lemma queryIngesterStream_returns results :
  ∃ resp, queryIngesterStream results resp.
Proof.
  destruct (mergeResponses_fold results) as [n Hfold].
  eexists. eexists _, _, n, _, _. split; [exact Hfold|].
  split; [apply map_range_map_to_list|]. split; [apply map_range_map_to_list|done].
Qed.

Lemma chunk_keys_NoDup results resp :
  queryIngesterStream results resp →
  NoDup ((LabelsToKeyString ∘ ChunkLabels) <$> Chunkseries resp).
Proof.
  intros (oc & ot & Hoc & _ & ->)%queryIngesterStream_inv. simpl.
  rewrite (map_range_keys _ _ (LabelsToKeyString ∘ ChunkLabels) Hoc).
  - by eapply map_range_NoDup.
  - apply chunkseries_fold_keyed. apply map_Forall_empty.
Qed.

Lemma series_keys_NoDup results resp :
  queryIngesterStream results resp →
  NoDup ((LabelsToKeyString ∘ Labels) <$> Timeseries resp).
Proof.
  intros (oc & ot & _ & Hot & ->)%queryIngesterStream_inv. simpl.
  rewrite (map_range_keys _ _ (LabelsToKeyString ∘ Labels) Hot).
  - by eapply map_range_NoDup.
  - apply timeseries_fold_keyed. apply map_Forall_empty.
Qed.

(** An emitted chunk-series holds the chunk lists contributed under its
    key, joined in order of arrival. *)
Lemma output_chunks results resp e :
  queryIngesterStream results resp → e ∈ Chunkseries resp →
  chunkseries_of (LabelsToKeyString (ChunkLabels e)) (all_chunkseries results) ≠ [] ∧
  Chunks e =
    mjoin (Chunks <$> chunkseries_of (LabelsToKeyString (ChunkLabels e))
                        (all_chunkseries results)).
Proof.
  intros (oc & ot & Hoc & _ & ->)%queryIngesterStream_inv. simpl.
  intros [k Hk]%(map_range_elem_of _ _ _ Hoc).
  assert (LabelsToKeyString (ChunkLabels e) = k) as ->.
  { eapply (chunkseries_fold_keyed ∅); [apply map_Forall_empty|done]. }
  split.
  - assert (is_Some (foldl chunkseries_step ∅ (all_chunkseries results) !! k))
      as Hsome by eauto.
    apply chunkseries_fold_is_Some in Hsome as [[? Hemp]|?]; [|done].
    by rewrite lookup_empty in Hemp.
  - pose proof (chunkseries_fold_chunks ∅ (all_chunkseries results) k) as Hc.
    by rewrite Hk, lookup_empty in Hc.
Qed.

(** Every key under which a chunk-series was contributed is emitted. *)
Lemma output_chunks_complete results resp s :
  queryIngesterStream results resp → s ∈ all_chunkseries results →
  ∃ e, e ∈ Chunkseries resp ∧
       LabelsToKeyString (ChunkLabels e) = LabelsToKeyString (ChunkLabels s).
Proof.
  intros (oc & ot & Hoc & _ & ->)%queryIngesterStream_inv Hs. simpl.
  set (k := LabelsToKeyString (ChunkLabels s)).
  assert (is_Some (foldl chunkseries_step ∅ (all_chunkseries results) !! k))
    as [e He].
  { apply chunkseries_fold_is_Some. right. intros Hnil.
    assert (s ∈ chunkseries_of k (all_chunkseries results)) as Hin.
    { by apply list_elem_of_filter. }
    rewrite Hnil in Hin. by apply elem_of_nil in Hin. }
  exists e. split.
  - apply (map_range_elem_of _ _ _ Hoc). by exists k.
  - eapply (chunkseries_fold_keyed ∅); [apply map_Forall_empty|done].
Qed.

(** An emitted time-series holds, as timestamps, those contributed under
    its key. *)
Lemma output_timestamps results resp e :
  queryIngesterStream results resp → e ∈ Timeseries resp →
  series_timestamps e =
    ⋃ (series_timestamps <$> timeseries_of (LabelsToKeyString (Labels e))
                               (all_timeseries results)).
Proof.
  intros (oc & ot & _ & Hot & ->)%queryIngesterStream_inv. simpl.
  intros [k Hk]%(map_range_elem_of _ _ _ Hot).
  assert (LabelsToKeyString (Labels e) = k) as ->.
  { eapply (timeseries_fold_keyed ∅); [apply map_Forall_empty|done]. }
  pose proof (timeseries_fold_timestamps ∅ (all_timeseries results) k) as Hc.
  rewrite Hk, lookup_empty in Hc. simpl in Hc. rewrite Hc.
  unfold series_timestamps at 1, timestamp_set. simpl.
  by rewrite (left_id_L ∅ (∪)).
Qed.
End stream_output.

(** ** The batch aggregator's output *)

Section batch_facts.
Context `{BatchModel}.
Implicit Types (m : gmap N SampleStream) (ss : SampleStream).

Lemma matrix_step_keyed m ss : keyed_streams m → keyed_streams (matrix_step m ss).
Proof.
  intros Hm. unfold matrix_step.
  destruct (m !! Fingerprint (StreamMetric ss)) as [mss|] eqn:Hfp;
    apply map_Forall_insert_2; simpl; try done.
  by apply Hm in Hfp.
Qed.

Lemma matrix_fold_keyed m l :
  keyed_streams m → keyed_streams (foldl matrix_step m l).
Proof.
  revert m. induction l as [|ss l IH]; intros m Hm; simpl; [done|].
  by apply IH, matrix_step_keyed.
Qed.


Lemma mergeMatrices_flat results :
  mergeMatrices results = foldl matrix_step ∅ (mjoin results).
Proof.
  unfold mergeMatrices. generalize (∅ : gmap N SampleStream).
  induction results as [|r results IH]; intros m; simpl; [done|].
  by rewrite foldl_app, IH.
Qed.

Lemma queryIngesters_returns results : ∃ result, queryIngesters results result.
Proof.
  eexists. exists (map_to_list (mergeMatrices results)).
  split; [apply map_range_map_to_list|done].
Qed.

Lemma fingerprints_NoDup results result :
  queryIngesters results result → NoDup (fingerprints result).
Proof.
  intros (order & Horder & ->). unfold fingerprints.
  rewrite (map_range_keys _ _ (Fingerprint ∘ StreamMetric) Horder).
  - by eapply map_range_NoDup.
  - rewrite mergeMatrices_flat. apply matrix_fold_keyed, map_Forall_empty.
Qed.

End batch_facts.

(** ** Order of arrival *)


Section stream_order.
Context `{SeriesKey}.




Lemma timeseries_of_Permutation key results results' :
  results ≡ₚ results' →
  timeseries_of key (all_timeseries results)
    ≡ₚ timeseries_of key (all_timeseries results').
Proof. unfold timeseries_of, all_timeseries. by intros ->. Qed.
End stream_order.

(** Building a response of the streaming aggregator from the two maps. *)
Lemma queryIngesterStream_intro `{SeriesKey} results oc ot :
  map_range (foldl chunkseries_step ∅ (all_chunkseries results)) oc →
  map_range (foldl timeseries_merge ∅ (all_timeseries results)) ot →
  queryIngesterStream results (mkQueryStreamResponse oc.*2 ot.*2).
Proof.
  intros Hoc Hot. destruct (mergeResponses_fold results) as [n Hfold].
  by eexists _, _, n, oc, ot.
Qed.

(** Two entries under one key leave a singleton map. *)
Lemma chunkseries_fold_pair `{SeriesKey} (s1 s2 : TimeSeriesChunk) :
  LabelsToKeyString (ChunkLabels s1) = LabelsToKeyString (ChunkLabels s2) →
  foldl chunkseries_step ∅ [s1; s2] =
    {[ LabelsToKeyString (ChunkLabels s2) :=
         mkTimeSeriesChunk (ChunkLabels s2) (Chunks s1 ++ Chunks s2) ]}.
Proof.
  intros Hkey. cbn [foldl]. unfold chunkseries_step. rewrite lookup_empty, Hkey.
  rewrite lookup_insert_eq. cbn. by rewrite insert_insert_eq, insert_empty.
Qed.

Lemma timeseries_fold_pair `{SeriesKey} (s1 s2 : TimeSeries) (es : list Sample) :
  LabelsToKeyString (Labels s1) = LabelsToKeyString (Labels s2) →
  Samples s1 = Some es →
  foldl timeseries_merge ∅ [s1; s2] =
    {[ LabelsToKeyString (Labels s2) :=
         mkTimeSeries (Labels s2) (Some (merged es (elems (Samples s2)))) ]}.
Proof.
  intros Hkey Hes. cbn [foldl]. unfold timeseries_merge.
  rewrite lookup_empty, Hkey. rewrite lookup_insert_eq. cbn. rewrite Hes.
  by rewrite insert_insert_eq, insert_empty.
Qed.

(** A response the streaming aggregator may return for the two example
    replicas, in each order of arrival. *)
Lemma queryIngesterStream_AB :
  @queryIngesterStream example_key [replicaA; replicaB] response_AB.
Proof.
  apply (queryIngesterStream_intro (H:=example_key) [replicaA; replicaB]
           [(example_key up_labels, mkTimeSeriesChunk up_labels [chunkA; chunkB])]
           [(example_key up_labels, mkTimeSeries up_labels (Some [mkSample f1 100]))]).
  - unfold map_range, all_chunkseries. cbn [mbind list_bind replicaA replicaB Chunkseries app].
    rewrite chunkseries_fold_pair by done. by rewrite map_to_list_singleton.
  - unfold map_range, all_timeseries. cbn [mbind list_bind replicaA replicaB Timeseries app].
    rewrite (timeseries_fold_pair _ _ [mkSample f1 100]) by done.
    by rewrite map_to_list_singleton.
Qed.


(** ** ResultAggregator: the claims *)

(** C7 (chunk concatenation).  In a response of [queryIngesterStream], every
    chunk-series entry holds exactly the chunk lists that the replicas
    contributed under the entry's key, concatenated in order of arrival and
    otherwise untouched, so that its length is the sum of their lengths; and
    every key under which a chunk-series was contributed has an entry. *)
Theorem chunkseries_concatenated `{SeriesKey}
    (results : list QueryStreamResponse) (resp : QueryStreamResponse) :
  queryIngesterStream results resp →
  (∀ e, e ∈ Chunkseries resp →
     let contributed :=
       chunkseries_of (LabelsToKeyString (ChunkLabels e)) (all_chunkseries results) in
     contributed ≠ [] ∧
     Chunks e = concat (Chunks <$> contributed) ∧
     length (Chunks e) = sum_list (length <$> (Chunks <$> contributed))) ∧
  (∀ s, s ∈ all_chunkseries results →
     ∃ e, e ∈ Chunkseries resp ∧
          LabelsToKeyString (ChunkLabels e) = LabelsToKeyString (ChunkLabels s)).
Proof.
  intros Hresp. split.
  - intros e He. destruct (output_chunks results resp e Hresp He) as [Hne Hchunks].
    cbv zeta. split; [done|]. rewrite concat_mjoin. split; [done|].
    by rewrite Hchunks at 1; rewrite length_join.
  - intros s Hs. by eapply output_chunks_complete.
Qed.

Lemma chunkseries_concatenated_witness :
  (∀ e, e ∈ Chunkseries response_AB →
     let contributed :=
       @chunkseries_of example_key (example_key (ChunkLabels e))
         (all_chunkseries [replicaA; replicaB]) in
     contributed ≠ [] ∧
     Chunks e = concat (Chunks <$> contributed) ∧
     length (Chunks e) = sum_list (length <$> (Chunks <$> contributed))) ∧
  (∀ s, s ∈ all_chunkseries [replicaA; replicaB] →
     ∃ e, e ∈ Chunkseries response_AB ∧
          example_key (ChunkLabels e) = example_key (ChunkLabels s)).
Proof.
  exact (chunkseries_concatenated (H:=example_key) [replicaA; replicaB] response_AB
           queryIngesterStream_AB).
Defined.

(** A matrix the batch aggregator may return for the two example replicas. *)
Lemma queryIngesters_AB :
  @queryIngesters example_batch [matrixA; matrixB]
    [mkSampleStream (H:=example_batch) up_labels [mkSample f1 100]].
Proof.
  exists [(Fingerprint (BatchModel:=example_batch) up_labels,
           mkSampleStream (H:=example_batch) up_labels [mkSample f1 100])].
  split; [|done]. unfold map_range, mergeMatrices, matrixA, matrixB.
  cbn [foldl]. unfold matrix_step. rewrite lookup_empty. cbn [StreamMetric Values].
  rewrite lookup_insert_eq. cbn [StreamMetric Values].
  rewrite insert_insert_eq, insert_empty. by rewrite map_to_list_singleton.
Qed.

(** C8 (one entry per identity).  Both aggregators return on every collection
    of replica results; a matrix of [queryIngesters] holds no two sample
    streams with one fingerprint, and a response of [queryIngesterStream]
    holds no two chunk-series entries and no two time-series entries with one
    canonical key. *)
Theorem identities_unique `{SeriesKey} `{BatchModel}
    (results : list QueryStreamResponse) (matrices : list (list SampleStream)) :
  ((∃ result, queryIngesters matrices result) ∧
   ∀ result, queryIngesters matrices result → NoDup (fingerprints result)) ∧
  ((∃ resp, queryIngesterStream results resp) ∧
   ∀ resp, queryIngesterStream results resp →
     NoDup ((LabelsToKeyString ∘ ChunkLabels) <$> Chunkseries resp) ∧
     NoDup ((LabelsToKeyString ∘ Labels) <$> Timeseries resp)).
Proof.
  split; split.
  - apply queryIngesters_returns.
  - apply fingerprints_NoDup.
  - apply queryIngesterStream_returns.
  - intros resp Hresp. split.
    + by eapply chunk_keys_NoDup.
    + by eapply series_keys_NoDup.
Qed.

Lemma identities_unique_witness :
  NoDup (@fingerprints example_batch
           [mkSampleStream (H:=example_batch) up_labels [mkSample f1 100]]) ∧
  NoDup ((example_key ∘ ChunkLabels) <$> Chunkseries response_AB) ∧
  NoDup ((example_key ∘ Labels) <$> Timeseries response_AB).
Proof.
  pose proof (identities_unique (H:=example_key) (H0:=example_batch)
                [replicaA; replicaB] [matrixA; matrixB]) as [[_ Hbatch] [_ Hstream]].
  split.
  - apply Hbatch, queryIngesters_AB.
  - apply Hstream, queryIngesterStream_AB.
Defined.


(** ** ReplicaSelector: the claim *)





(** * Further properties of the code *)

(** ** SampleMerger *)

Lemma mergeSamplesGeneral_spec (a b : list Sample) :
  mergeSamplesGeneral a b = Ok (merge_lists a b) 1%nat.
Proof.
  unfold mergeSamplesGeneral.
  destruct (mergeLoop_spec (S (length a + length b)) a b 0 0 [])
    as (i&j&r&Hloop&Hi&Hj&Heq); [lia..|].
  unfold make. simpl in *. rewrite Hloop. simpl.
  unfold slice_from. rewrite !decide_True by done. simpl.
  rewrite Heq. done.
Qed.

(** On inputs that pass the fast-path test every step of the two-pointer
    merge is a tie. *)
Lemma same_elems_merge_lists (a b : list Sample) :
  length a = length b → same_elems a b = true → merge_lists a b = a.
Proof.
  revert b. induction a as [|x a IH]; intros [|y b] Hlen; try done.
  simpl same_elems. intros [[_ Ht%Z.eqb_eq]%andb_prop Hab]%andb_prop.
  rewrite merge_lists_cons, Ht, Z.ltb_irrefl, Z.gtb_ltb, Z.ltb_irrefl.
  rewrite IH; [done| |done]. simpl in Hlen. lia.
Qed.

Lemma merged_merge_lists (a b : list Sample) : merged a b = merge_lists a b.
Proof.
  unfold merged. destruct (same_samples a b) eqn:Hsame; [|done].
  apply andb_prop in Hsame as [Hlen%bool_decide_eq_true Hab].
  by rewrite same_elems_merge_lists.
Qed.

Lemma mergeSamples_returns_merge_lists (a b : list Sample) :
  returns (mergeSamples a b) (merge_lists a b).
Proof.
  destruct (mergeSamples_merged a b) as [n Hn]. exists n.
  by rewrite Hn, merged_merge_lists.
Qed.

(** X1 (the fast path is an optimisation).  On every pair of inputs
    [mergeSamples] returns exactly the contents that its general path, run
    without the fast-path test, returns. *)
Theorem mergeSamples_fast_path_transparent (a b : list Sample) :
  ∃ r, returns (mergeSamples a b) r ∧ returns (mergeSamplesGeneral a b) r.
Proof.
  exists (merge_lists a b). split; [apply mergeSamples_returns_merge_lists|].
  exists 1%nat. apply mergeSamplesGeneral_spec.
Qed.

Lemma merge_lists_sublist_l (a b : list Sample) : a `sublist_of` merge_lists a b.
Proof.
  revert b. induction a as [|x a IHa]; intros b; [apply sublist_nil_l|].
  induction b as [|y b IHb]; [done|].
  rewrite merge_lists_cons.
  destruct (TimestampMs x <? TimestampMs y);
    [|destruct (TimestampMs x >? TimestampMs y)].
  - apply sublist_skip, IHa.
  - apply sublist_cons, IHb.
  - apply sublist_skip, IHa.
Qed.

Lemma merge_lists_length (a b : list Sample) :
  (length b ≤ length (merge_lists a b) ≤ length a + length b)%nat.
Proof.
  revert b. induction a as [|x a IHa]; intros b.
  { rewrite merge_lists_nil_l. simpl. lia. }
  induction b as [|y b IHb]; [simpl; lia|].
  rewrite merge_lists_cons.
  cbn [length] in *.
  destruct (TimestampMs x <? TimestampMs y);
    [|destruct (TimestampMs x >? TimestampMs y)]; cbn [length].
  - specialize (IHa (y :: b)). cbn [length] in IHa. lia.
  - lia.
  - specialize (IHa b). lia.
Qed.

(** X2 (size of the result).  The series [mergeSamples] returns is at least
    as long as each input and at most as long as both together, so the
    capacity asked of [make] is never exceeded by the appends. *)
Theorem mergeSamples_length (a b : list Sample) :
  ∃ r, returns (mergeSamples a b) r ∧
       (length a ≤ length r)%nat ∧ (length b ≤ length r)%nat ∧
       (length r ≤ length a + length b)%nat.
Proof.
  exists (merge_lists a b). split; [apply mergeSamples_returns_merge_lists|].
  pose proof (sublist_length _ _ (merge_lists_sublist_l a b)).
  pose proof (merge_lists_length a b). lia.
Qed.

(** X3 (the left operand is kept).  On every pair of inputs, sorted or not,
    the series [mergeSamples] returns contains the samples of [a], all of
    them and in their order, and every sample of it is a sample of [a] or of
    [b]. *)
Theorem mergeSamples_keeps_left (a b : list Sample) :
  ∃ r, returns (mergeSamples a b) r ∧
       a `sublist_of` r ∧ ∀ s, s ∈ r → s ∈ a ∨ s ∈ b.
Proof.
  exists (merge_lists a b). split; [apply mergeSamples_returns_merge_lists|].
  split; [apply merge_lists_sublist_l|]. intros s. apply elem_of_merge_lists_inv.
Qed.

Lemma elem_of_timestamps (t : Z) (l : list Sample) :
  t ∈ timestamps l ↔ ∃ s, s ∈ l ∧ TimestampMs s = t.
Proof.
  unfold timestamps. rewrite list_elem_of_fmap. naive_solver.
Qed.

(** What the merge of two valid series holds: the samples of [a], and the
    samples of [b] at timestamps that [a] does not have. *)
Lemma elem_of_merge_lists (s : Sample) (a b : list Sample) :
  strictly_increasing a → strictly_increasing b →
  s ∈ merge_lists a b ↔ s ∈ a ∨ (s ∈ b ∧ TimestampMs s ∉ timestamps a).
Proof.
  intros Ha Hb. split.
  - intros Hs.
    destruct (decide (TimestampMs s ∈ timestamps a)) as [Hin|Hnin]; last first.
    { destruct (elem_of_merge_lists_inv _ _ _ Hs) as [|Hsb]; [by left|by right]. }
    left. apply elem_of_timestamps in Hin as (sa & Hsa & Ht).
    pose proof (merge_lists_increasing a b Ha Hb) as Hinc.
    pose proof (filter_timestamp_increasing s _ Hinc Hs) as Hf.
    assert (sa ∈ filter (λ x, TimestampMs x = TimestampMs s) (merge_lists a b))
      as Hin.
    { apply list_elem_of_filter. split; [done|]. by apply elem_of_merge_lists_l. }
    rewrite Hf in Hin. apply list_elem_of_singleton in Hin. by subst sa.
  - intros [Hsa|[Hsb Hns]]; [by apply elem_of_merge_lists_l|].
    clear Ha. revert b Hb Hsb Hns. induction a as [|x a IHa]; intros b Hb Hsb Hns.
    { by rewrite merge_lists_nil_l. }
    assert (TimestampMs s ≠ TimestampMs x) as Hsx.
    { intros Heq. apply Hns. unfold timestamps. rewrite fmap_cons, Heq. left. }
    assert (TimestampMs s ∉ timestamps a) as Hns'.
    { intros Hin. apply Hns. unfold timestamps. rewrite fmap_cons. by right. }
    induction b as [|y b IHb]; [by apply elem_of_nil in Hsb|].
    pose proof Hb as [Hyb Hb']%strictly_increasing_cons.
    rewrite merge_lists_cons.
    destruct (Z.ltb_spec (TimestampMs x) (TimestampMs y)) as [Hlt|Hge].
    { right. by apply IHa. }
    destruct (Z.gtb_spec (TimestampMs x) (TimestampMs y)) as [Hgt|Hle].
    { apply elem_of_cons in Hsb as [->|Hsb]; [left|right; by apply IHb]. }
    right. apply IHa; [done| |done].
    apply elem_of_cons in Hsb as [->|Hsb]; [|done]. lia.
Qed.

(** A valid series is determined by the samples it holds. *)
Lemma strictly_increasing_ext (l k : list Sample) :
  strictly_increasing l → strictly_increasing k →
  (∀ s, s ∈ l ↔ s ∈ k) → l = k.
Proof.
  revert k. induction l as [|x l IH]; intros [|y k] Hl Hk Hlk.
  - done.
  - pose proof (proj2 (Hlk y) ltac:(left)) as Hy. by apply elem_of_nil in Hy.
  - pose proof (proj1 (Hlk x) ltac:(left)) as Hx. by apply elem_of_nil in Hx.
  - apply strictly_increasing_cons in Hl as [Hxl Hl].
    apply strictly_increasing_cons in Hk as [Hyk Hk].
    assert (x = y) as ->.
    { pose proof (proj1 (Hlk x) ltac:(left)) as [?|Hxk]%elem_of_cons; [done|].
      pose proof (proj2 (Hlk y) ltac:(left)) as [?|Hyl]%elem_of_cons; [done|].
      specialize (Hxl _ Hyl). specialize (Hyk _ Hxk). lia. }
    f_equal. apply IH; [done..|]. intros s. split; intros Hs.
    + pose proof (proj1 (Hlk s) ltac:(by right)) as [->|?]%elem_of_cons; [|done].
      specialize (Hxl _ Hs). lia.
    + pose proof (proj2 (Hlk s) ltac:(by right)) as [->|?]%elem_of_cons; [|done].
      specialize (Hyk _ Hs). lia.
Qed.

(** X4 (contents on valid inputs).  For strictly increasing [a] and [b], a
    sample is in the series [mergeSamples] returns exactly when it is a
    sample of [a], or a sample of [b] at a timestamp that no sample of [a]
    has. *)
Theorem mergeSamples_contents (a b : list Sample) :
  strictly_increasing a → strictly_increasing b →
  ∃ r, returns (mergeSamples a b) r ∧
       ∀ s, s ∈ r ↔ s ∈ a ∨ (s ∈ b ∧ TimestampMs s ∉ timestamps a).
Proof.
  intros Ha Hb. exists (merge_lists a b).
  split; [apply mergeSamples_returns_merge_lists|].
  intros s. by apply elem_of_merge_lists.
Qed.

Lemma mergeSamples_contents_witness :
  ∃ r, returns (mergeSamples [mkSample f1 100; mkSample f2 200]
                             [mkSample f3 200; mkSample f3 300]) r ∧
       ∀ s, s ∈ r ↔
            s ∈ [mkSample f1 100; mkSample f2 200] ∨
            (s ∈ [mkSample f3 200; mkSample f3 300] ∧
             TimestampMs s ∉ timestamps [mkSample f1 100; mkSample f2 200]).
Proof.
  apply mergeSamples_contents; unfold strictly_increasing; simpl;
    repeat constructor; lia.
Defined.

Lemma merge_lists_assoc (a b c : list Sample) :
  strictly_increasing a → strictly_increasing b → strictly_increasing c →
  merge_lists (merge_lists a b) c = merge_lists a (merge_lists b c).
Proof.
  intros Ha Hb Hc.
  pose proof (merge_lists_increasing a b Ha Hb) as Hab.
  pose proof (merge_lists_increasing b c Hb Hc) as Hbc.
  apply strictly_increasing_ext; [by apply merge_lists_increasing..|].
  intros s. rewrite !elem_of_merge_lists by done.
  assert (TimestampMs s ∈ timestamps (merge_lists a b) ↔
          TimestampMs s ∈ timestamps a ∨ TimestampMs s ∈ timestamps b) as Hts.
  { rewrite <-!(elem_of_list_to_set (C:=gset Z)).
    fold (timestamp_set (merge_lists a b)) (timestamp_set a) (timestamp_set b).
    rewrite timestamp_set_merge_lists. apply elem_of_union. }
  rewrite Hts.
  assert (s ∈ a → TimestampMs s ∈ timestamps a) as Hina.
  { intros ?. apply elem_of_timestamps. eauto. }
  assert (s ∈ b → TimestampMs s ∈ timestamps b) as Hinb.
  { intros ?. apply elem_of_timestamps. eauto. }
  destruct (decide (TimestampMs s ∈ timestamps a));
    destruct (decide (TimestampMs s ∈ timestamps b)); naive_solver.
Qed.

(** X5 (associativity).  For strictly increasing [a], [b] and [c], merging
    [a] with [b] and the result with [c] returns the same series as merging
    [a] with the merge of [b] and [c]: a fold over several replicas does not
    depend on how the merges are grouped. *)
Theorem mergeSamples_assoc (a b c : list Sample) :
  strictly_increasing a → strictly_increasing b → strictly_increasing c →
  ∃ ab bc r,
    returns (mergeSamples a b) ab ∧ returns (mergeSamples b c) bc ∧
    returns (mergeSamples ab c) r ∧ returns (mergeSamples a bc) r.
Proof.
  intros Ha Hb Hc.
  exists (merge_lists a b), (merge_lists b c), (merge_lists (merge_lists a b) c).
  split; [apply mergeSamples_returns_merge_lists|].
  split; [apply mergeSamples_returns_merge_lists|].
  split; [apply mergeSamples_returns_merge_lists|].
  rewrite merge_lists_assoc by done. apply mergeSamples_returns_merge_lists.
Qed.

Lemma mergeSamples_assoc_witness :
  ∃ ab bc r,
    returns (mergeSamples [mkSample f1 100] [mkSample f2 100; mkSample f2 200]) ab ∧
    returns (mergeSamples [mkSample f2 100; mkSample f2 200] [mkSample f3 200]) bc ∧
    returns (mergeSamples ab [mkSample f3 200]) r ∧
    returns (mergeSamples [mkSample f1 100] bc) r.
Proof.
  apply mergeSamples_assoc; unfold strictly_increasing; simpl;
    repeat constructor; lia.
Defined.

Lemma sorted_timestamps_ext (l k : list Z) :
  StronglySorted Z.lt l → StronglySorted Z.lt k → (∀ t, t ∈ l ↔ t ∈ k) → l = k.
Proof.
  revert k. induction l as [|x l IH]; intros [|y k] Hl Hk Hlk.
  - done.
  - pose proof (proj2 (Hlk y) ltac:(left)) as Hy. by apply elem_of_nil in Hy.
  - pose proof (proj1 (Hlk x) ltac:(left)) as Hx. by apply elem_of_nil in Hx.
  - apply StronglySorted_cons in Hl as [Hxl Hl].
    apply StronglySorted_cons in Hk as [Hyk Hk].
    rewrite Forall_forall in Hxl, Hyk.
    assert (x = y) as ->.
    { pose proof (proj1 (Hlk x) ltac:(left)) as [?|Hxk]%elem_of_cons; [done|].
      pose proof (proj2 (Hlk y) ltac:(left)) as [?|Hyl]%elem_of_cons; [done|].
      specialize (Hxl _ Hyl). specialize (Hyk _ Hxk). lia. }
    f_equal. apply IH; [done..|]. intros t. split; intros Ht.
    + pose proof (proj1 (Hlk t) ltac:(by right)) as [->|?]%elem_of_cons; [|done].
      specialize (Hxl _ Ht). lia.
    + pose proof (proj2 (Hlk t) ltac:(by right)) as [->|?]%elem_of_cons; [|done].
      specialize (Hyk _ Ht). lia.
Qed.

Lemma elem_of_timestamps_merge_lists (t : Z) (a b : list Sample) :
  t ∈ timestamps (merge_lists a b) ↔ t ∈ timestamps a ∨ t ∈ timestamps b.
Proof.
  rewrite <-!(elem_of_list_to_set (C:=gset Z)).
  fold (timestamp_set (merge_lists a b)) (timestamp_set a) (timestamp_set b).
  rewrite timestamp_set_merge_lists. apply elem_of_union.
Qed.

Lemma elem_of_timestamps_2 (s : Sample) (l : list Sample) :
  s ∈ l → TimestampMs s ∈ timestamps l.
Proof. intros ?. apply elem_of_timestamps. eauto. Qed.

Lemma merge_lists_comm (a b : list Sample) :
  strictly_increasing a → strictly_increasing b → agree a b →
  merge_lists a b = merge_lists b a.
Proof.
  intros Ha Hb Hab.
  apply strictly_increasing_ext; [by apply merge_lists_increasing..|].
  intros s. rewrite !elem_of_merge_lists by done. split.
  - intros [Hsa|[Hsb _]]; [|by left].
    destruct (decide (TimestampMs s ∈ timestamps b)) as [Hin|]; [|by right].
    apply elem_of_timestamps in Hin as (sb & Hsb & Ht).
    left. by rewrite (Hab s sb Hsa Hsb).
  - intros [Hsb|[Hsa _]]; [|by left].
    destruct (decide (TimestampMs s ∈ timestamps a)) as [Hin|]; [|by right].
    apply elem_of_timestamps in Hin as (sa & Hsa & Ht).
    left. by rewrite <-(Hab sa s Hsa Hsb).
Qed.

(** X6 (commutativity).  For strictly increasing [a] and [b], merging in
    either order returns series with the same timestamps in the same order;
    when the two series agree on the samples at shared timestamps, the two
    orders return the same series. *)
Theorem mergeSamples_comm (a b : list Sample) :
  strictly_increasing a → strictly_increasing b →
  ∃ rab rba,
    returns (mergeSamples a b) rab ∧ returns (mergeSamples b a) rba ∧
    timestamps rab = timestamps rba ∧
    (agree a b → rab = rba).
Proof.
  intros Ha Hb. exists (merge_lists a b), (merge_lists b a).
  split; [apply mergeSamples_returns_merge_lists|].
  split; [apply mergeSamples_returns_merge_lists|]. split.
  - apply sorted_timestamps_ext; [by apply merge_lists_increasing..|].
    intros t. rewrite !elem_of_timestamps_merge_lists. tauto.
  - intros Hab. by apply merge_lists_comm.
Qed.

Lemma mergeSamples_comm_witness :
  ∃ rab rba,
    returns (mergeSamples [mkSample f1 100; mkSample f2 200]
                          [mkSample f2 200; mkSample f3 300]) rab ∧
    returns (mergeSamples [mkSample f2 200; mkSample f3 300]
                          [mkSample f1 100; mkSample f2 200]) rba ∧
    timestamps rab = timestamps rba ∧
    (agree [mkSample f1 100; mkSample f2 200] [mkSample f2 200; mkSample f3 300] →
     rab = rba).
Proof.
  apply mergeSamples_comm; unfold strictly_increasing; simpl;
    repeat constructor; lia.
Defined.

(** X7 (absorption).  For strictly increasing [a] and [b], merging the
    result of [mergeSamples a b] again with [a] or with [b], or merging [a]
    with it, returns that result: a replica whose samples are already merged
    in changes nothing. *)
Theorem mergeSamples_absorb (a b : list Sample) :
  strictly_increasing a → strictly_increasing b →
  ∃ ab, returns (mergeSamples a b) ab ∧
        returns (mergeSamples ab a) ab ∧
        returns (mergeSamples ab b) ab ∧
        returns (mergeSamples a ab) ab.
Proof.
  intros Ha Hb. pose proof (merge_lists_increasing a b Ha Hb) as Hab.
  exists (merge_lists a b). split; [apply mergeSamples_returns_merge_lists|].
  assert (∀ x y, strictly_increasing x → strictly_increasing y →
            (∀ s, s ∈ merge_lists x y ↔ s ∈ merge_lists a b) →
            returns (mergeSamples x y) (merge_lists a b)) as Hret.
  { intros x y Hx Hy Hxy.
    rewrite <-(strictly_increasing_ext (merge_lists x y) (merge_lists a b));
      [apply mergeSamples_returns_merge_lists
      |by apply merge_lists_increasing|done..]. }
  split; [|split]; apply Hret; try done; intros s;
    rewrite (elem_of_merge_lists s _ _) by done.
  - split; [|by left]. intros [?|[Hsa Hns]]; [done|]. destruct Hns.
    apply elem_of_timestamps_merge_lists. left. by apply elem_of_timestamps_2.
  - split; [|by left]. intros [?|[Hsb Hns]]; [done|]. destruct Hns.
    apply elem_of_timestamps_merge_lists. right. by apply elem_of_timestamps_2.
  - rewrite (elem_of_merge_lists s a b) by done. tauto.
Qed.

Lemma mergeSamples_absorb_witness :
  ∃ ab, returns (mergeSamples [mkSample f1 100; mkSample f2 200]
                              [mkSample f3 200; mkSample f3 300]) ab ∧
        returns (mergeSamples ab [mkSample f1 100; mkSample f2 200]) ab ∧
        returns (mergeSamples ab [mkSample f3 200; mkSample f3 300]) ab ∧
        returns (mergeSamples [mkSample f1 100; mkSample f2 200] ab) ab.
Proof.
  apply mergeSamples_absorb; unfold strictly_increasing; simpl;
    repeat constructor; lia.
Defined.

Lemma SFeqb_sym (u v : spec_float) : SFeqb u v = SFeqb v u.
Proof.
  unfold SFeqb.
  destruct u as [s1|s1| |s1 m1 e1], v as [s2|s2| |s2 m2 e2]; simpl; try done;
    try (by destruct s1, s2); try (by destruct s1); try (by destruct s2).
  assert (Pos.compare_cont Eq m2 m1 = CompOpp (Pos.compare_cont Eq m1 m2)) as Hm.
  { symmetry. apply (Pos.compare_cont_antisym m1 m2 Eq). }
  destruct s1, s2; try done;
    rewrite (Z.compare_antisym e1 e2), Hm;
    destruct (e1 ?= e2); simpl; try done;
    by destruct (Pos.compare_cont Eq m1 m2).
Qed.

Lemma Sample_eqb_sym (x y : Sample) : Sample_eqb x y = Sample_eqb y x.
Proof. unfold Sample_eqb. by rewrite SFeqb_sym, Z.eqb_sym. Qed.

Lemma same_samples_sym (a b : list Sample) : same_samples a b = same_samples b a.
Proof.
  unfold same_samples. f_equal.
  - apply bool_decide_ext. split; congruence.
  - revert b. induction a as [|x a IH]; intros [|y b]; simpl; try done.
    by rewrite Sample_eqb_sym, IH.
Qed.

(** X8 (the fast-path test).  [sameSamples] returns on every pair of inputs
    (the reads of [b] are in range), with the same answer for [(a, b)] and
    [(b, a)]; the answer is true exactly when the two series have one length
    and Go's [==] holds of their samples position by position, and then their
    timestamps are the same. *)
Theorem sameSamples_answer (a b : list Sample) :
  ∃ same, returns (sameSamples a b) same ∧ returns (sameSamples b a) same ∧
          (same = true ↔ go_equal a b) ∧
          (same = true → timestamps a = timestamps b).
Proof.
  exists (same_samples a b).
  split; [exists 0%nat; apply sameSamples_spec|].
  split; [exists 0%nat; rewrite sameSamples_spec; by rewrite same_samples_sym|].
  split; [apply same_samples_go_equal|apply same_samples_timestamps].
Qed.

(** ** The N-way fold *)

Lemma mergeAll_fold (acc : list Sample) (series : list (list Sample)) :
  returns (for_range mergeSamples acc series) (foldl merge_lists acc series).
Proof.
  apply (for_range_total mergeSamples merge_lists).
  intros st x. apply mergeSamples_returns_merge_lists.
Qed.

Lemma fold_merge_increasing (acc : list Sample) (series : list (list Sample)) :
  strictly_increasing acc → Forall strictly_increasing series →
  strictly_increasing (foldl merge_lists acc series).
Proof.
  intros Hacc Hall. revert acc Hacc.
  induction Hall as [|x series Hx _ IH]; intros acc Hacc; simpl; [done|].
  by apply IH, merge_lists_increasing.
Qed.

Lemma elem_of_fold_merge_inv (s : Sample) (acc : list Sample)
    (series : list (list Sample)) :
  s ∈ foldl merge_lists acc series → s ∈ acc ∨ ∃ x, x ∈ series ∧ s ∈ x.
Proof.
  revert acc. induction series as [|x series IH]; intros acc; simpl; [by left|].
  intros [[Hs|Hs]%elem_of_merge_lists_inv|(y & Hy & Hs)]%IH.
  - by left.
  - right. exists x. split; [left|done].
  - right. exists y. split; [by right|done].
Qed.

(** Over consistent series the fold holds exactly the samples of the series. *)
Lemma elem_of_fold_merge (s : Sample) (series : list (list Sample)) :
  consistent series →
  s ∈ foldl merge_lists [] series ↔ ∃ x, x ∈ series ∧ s ∈ x.
Proof.
  intros [Hinc Hagree].
  assert (∀ done_ acc todo,
            series = done_ ++ todo → strictly_increasing acc →
            (∀ s, s ∈ acc ↔ ∃ x, x ∈ done_ ∧ s ∈ x) →
            s ∈ foldl merge_lists acc todo ↔ ∃ x, x ∈ series ∧ s ∈ x) as Hgen.
  { intros done_ acc todo. revert done_ acc.
    induction todo as [|x todo IH]; intros done_ acc Hseries Hacc Hin.
    { rewrite app_nil_r in Hseries. subst done_. simpl. apply Hin. }
    simpl. apply (IH (done_ ++ [x])).
    - by rewrite <-(assoc_L (++)).
    - apply merge_lists_increasing; [done|].
      rewrite Forall_forall in Hinc. apply Hinc. subst series.
      apply elem_of_app. right. left.
    - assert (strictly_increasing x) as Hx.
      { rewrite Forall_forall in Hinc. apply Hinc. subst series.
        apply elem_of_app. right. left. }
      intros s'. rewrite elem_of_merge_lists by done. split.
      + intros [(y & Hy & Hs)%Hin|[Hs _]].
        * exists y. split; [|done]. apply elem_of_app. by left.
        * exists x. split; [|done]. apply elem_of_app. right. left.
      + intros (y & [Hy|Hy%list_elem_of_singleton]%elem_of_app & Hs).
        * left. apply Hin. eauto.
        * subst y.
          destruct (decide (TimestampMs s' ∈ timestamps acc)) as [Hts|]; [|by right].
          left. apply elem_of_timestamps in Hts as (sa & Hsa & Ht).
          pose proof Hsa as (z & Hz & Hsz)%Hin.
          assert (agree z x) as Hzx.
          { apply Hagree; subst series; apply elem_of_app;
              [by left|right; left]. }
          by rewrite <-(Hzx sa s' Hsz Hs Ht). }
  apply (Hgen [] [] series); [done|constructor|].
  intros s'. split; [by intros ?%elem_of_nil|].
  by intros (x & ?%elem_of_nil & _).
Qed.

Lemma consistent_Permutation (series series' : list (list Sample)) :
  series ≡ₚ series' → consistent series → consistent series'.
Proof.
  intros Hperm [Hinc Hagree]. split.
  - by rewrite <-Hperm.
  - intros a b Ha Hb. apply Hagree; by rewrite Hperm.
Qed.

Lemma fold_merge_Permutation (series series' : list (list Sample)) :
  series ≡ₚ series' → consistent series →
  foldl merge_lists [] series = foldl merge_lists [] series'.
Proof.
  intros Hperm Hcons.
  pose proof (consistent_Permutation _ _ Hperm Hcons) as Hcons'.
  apply strictly_increasing_ext.
  - apply fold_merge_increasing; [constructor|apply Hcons].
  - apply fold_merge_increasing; [constructor|apply Hcons'].
  - intros s. rewrite !elem_of_fold_merge by done.
    by setoid_rewrite Hperm.
Qed.

(** X9 (N-way fold).  Folding [mergeSamples] over strictly increasing series
    returns a strictly increasing series that holds only samples of the
    series folded; when the series moreover agree with each other on the
    samples at shared timestamps, the result holds exactly their samples and
    is the same for every order in which the series are folded. *)
Theorem mergeAll_order (series series' : list (list Sample)) :
  Forall strictly_increasing series → series ≡ₚ series' →
  ∃ r, returns (mergeAll series) r ∧ strictly_increasing r ∧
       (∀ s, s ∈ r → ∃ x, x ∈ series ∧ s ∈ x) ∧
       ((∀ a b, a ∈ series → b ∈ series → agree a b) →
        (∀ s, s ∈ r ↔ ∃ x, x ∈ series ∧ s ∈ x) ∧
        returns (mergeAll series') r).
Proof.
  intros Hinc Hperm. exists (foldl merge_lists [] series).
  split; [apply mergeAll_fold|].
  split; [apply fold_merge_increasing; [constructor|done]|]. split.
  - intros s [[]%elem_of_nil|?]%elem_of_fold_merge_inv. done.
  - intros Hagree. assert (consistent series) as Hcons by done. split.
    + intros s. by apply elem_of_fold_merge.
    + rewrite (fold_merge_Permutation _ _ Hperm Hcons). apply mergeAll_fold.
Qed.

Lemma mergeAll_order_witness :
  ∃ r, returns (mergeAll [[mkSample f1 100; mkSample f2 200];
                          [mkSample f2 200; mkSample f3 300]]) r ∧
       strictly_increasing r ∧
       (∀ s, s ∈ r → ∃ x, x ∈ [[mkSample f1 100; mkSample f2 200];
                                [mkSample f2 200; mkSample f3 300]] ∧ s ∈ x) ∧
       ((∀ a b, a ∈ [[mkSample f1 100; mkSample f2 200];
                     [mkSample f2 200; mkSample f3 300]] →
                b ∈ [[mkSample f1 100; mkSample f2 200];
                     [mkSample f2 200; mkSample f3 300]] → agree a b) →
        (∀ s, s ∈ r ↔ ∃ x, x ∈ [[mkSample f1 100; mkSample f2 200];
                                 [mkSample f2 200; mkSample f3 300]] ∧ s ∈ x) ∧
        returns (mergeAll [[mkSample f2 200; mkSample f3 300];
                           [mkSample f1 100; mkSample f2 200]]) r).
Proof.
  apply mergeAll_order.
  - repeat constructor; unfold strictly_increasing; simpl; repeat constructor; lia.
  - apply perm_swap.
Defined.

(** ** The time-series of the streaming aggregator *)

Section stream_samples.
Context `{SeriesKey}.

Implicit Types (key : string) (ts : gmap string TimeSeries).

Lemma timeseries_merge_samples ts series key :
  elems (Samples (default zeroTimeSeries (timeseries_merge ts series !! key))) =
    if decide (LabelsToKeyString (Labels series) = key)
    then merge_lists (elems (Samples (default zeroTimeSeries (ts !! key))))
           (elems (Samples series))
    else elems (Samples (default zeroTimeSeries (ts !! key))).
Proof.
  unfold timeseries_merge. case_decide as Hkey.
  - subst key. rewrite lookup_insert_eq. simpl.
    destruct (Samples (default zeroTimeSeries (ts !! _))) as [es|]; simpl.
    + apply merged_merge_lists.
    + by rewrite merge_lists_nil_l.
  - by rewrite lookup_insert_ne.
Qed.

Lemma timeseries_fold_samples ts l key :
  elems (Samples (default zeroTimeSeries (foldl timeseries_merge ts l !! key))) =
    foldl merge_lists (elems (Samples (default zeroTimeSeries (ts !! key))))
      (samples_of (timeseries_of key l)).
Proof.
  unfold samples_of, timeseries_of. revert ts.
  induction l as [|s l IH]; intros ts; [done|].
  cbn [foldl]. rewrite IH, timeseries_merge_samples, filter_cons.
  by case_decide.
Qed.

(** The samples of an emitted time-series: the fold of the merge over the
    series contributed under its key, in order of arrival. *)
Lemma output_samples results resp e :
  queryIngesterStream results resp → e ∈ Timeseries resp →
  elems (Samples e) =
    foldl merge_lists []
      (samples_of (timeseries_of (LabelsToKeyString (Labels e))
                     (all_timeseries results))).
Proof.
  intros (oc & ot & _ & Hot & ->)%queryIngesterStream_inv. simpl.
  intros [k Hk]%(map_range_elem_of _ _ _ Hot).
  assert (LabelsToKeyString (Labels e) = k) as ->.
  { eapply (timeseries_fold_keyed ∅); [apply map_Forall_empty|done]. }
  pose proof (timeseries_fold_samples ∅ (all_timeseries results) k) as Hs.
  by rewrite Hk, lookup_empty in Hs.
Qed.

Lemma samples_of_Permutation key results results' :
  results ≡ₚ results' →
  samples_of (timeseries_of key (all_timeseries results))
    ≡ₚ samples_of (timeseries_of key (all_timeseries results')).
Proof.
  intros Hperm. unfold samples_of.
  by rewrite (timeseries_of_Permutation key _ _ Hperm).
Qed.
End stream_samples.

(** X10 (samples of a merged series).  In a response of
    [queryIngesterStream] the samples of every time-series entry are what the
    fold of [mergeSamples] returns on the sample sequences contributed under
    the entry's key, taken in order of arrival, and the timestamps of the
    entry are exactly the timestamps contributed under its key. *)
Theorem stream_series_samples `{SeriesKey}
    (results : list QueryStreamResponse) (resp : QueryStreamResponse) :
  queryIngesterStream results resp →
  ∀ e, e ∈ Timeseries resp →
    let contributed :=
      samples_of (timeseries_of (LabelsToKeyString (Labels e))
                    (all_timeseries results)) in
    returns (mergeAll contributed) (elems (Samples e)) ∧
    timestamp_set (elems (Samples e)) = ⋃ (timestamp_set <$> contributed).
Proof.
  intros Hresp e He. cbv zeta. split.
  - rewrite (output_samples _ _ _ Hresp He). apply mergeAll_fold.
  - pose proof (output_timestamps _ _ _ Hresp He) as Hts.
    unfold series_timestamps in Hts at 1. rewrite Hts.
    unfold samples_of. by rewrite <-list_fmap_compose.
Qed.

Lemma stream_series_samples_witness :
  let e := mkTimeSeries up_labels (Some [mkSample f1 100]) in
  let contributed :=
    samples_of (@timeseries_of example_key (example_key (Labels e))
                  (all_timeseries [replicaA; replicaB])) in
  returns (mergeAll contributed) (elems (Samples e)) ∧
  timestamp_set (elems (Samples e)) = ⋃ (timestamp_set <$> contributed).
Proof.
  apply (stream_series_samples (H:=example_key) [replicaA; replicaB] response_AB
           queryIngesterStream_AB).
  simpl. left.
Defined.

(** X11 (validity is kept).  When every time-series that the replicas
    returned is strictly increasing in timestamp, so is every time-series of
    a response of [queryIngesterStream]. *)
Theorem stream_series_increasing `{SeriesKey}
    (results : list QueryStreamResponse) (resp : QueryStreamResponse) :
  Forall strictly_increasing (samples_of (all_timeseries results)) →
  queryIngesterStream results resp →
  Forall strictly_increasing (samples_of (Timeseries resp)).
Proof.
  intros Hvalid Hresp. unfold samples_of in *.
  rewrite Forall_fmap, Forall_forall in Hvalid |- *.
  intros e He. simpl. rewrite (output_samples _ _ _ Hresp He).
  apply fold_merge_increasing; [constructor|].
  unfold samples_of, timeseries_of. rewrite Forall_fmap, Forall_forall.
  intros c [_ Hc]%list_elem_of_filter. by apply Hvalid.
Qed.

Lemma stream_series_increasing_witness :
  Forall strictly_increasing (samples_of (Timeseries response_AB)).
Proof.
  apply (stream_series_increasing (H:=example_key) [replicaA; replicaB]);
    [|apply queryIngesterStream_AB].
  repeat constructor; unfold strictly_increasing; simpl; repeat constructor.
Defined.

Lemma agree_refl (a : list Sample) : strictly_increasing a → agree a a.
Proof.
  intros Ha sa sb Hsa Hsb Ht.
  pose proof (filter_timestamp_increasing sa a Ha Hsa) as Hf.
  assert (sb ∈ filter (λ x, TimestampMs x = TimestampMs sa) a) as Hin.
  { by apply list_elem_of_filter. }
  rewrite Hf in Hin. by apply list_elem_of_singleton in Hin.
Qed.

Lemma replicas_consistent_key `{SeriesKey} results key :
  replicas_consistent results →
  consistent (samples_of (timeseries_of key (all_timeseries results))).
Proof.
  intros [Hinc Hagree]. unfold samples_of, timeseries_of in *.
  rewrite Forall_fmap, Forall_forall in Hinc. split.
  - rewrite Forall_fmap, Forall_forall.
    intros c [_ Hc]%list_elem_of_filter. by apply Hinc.
  - intros a b (c & -> & [Hkc Hc]%list_elem_of_filter)%list_elem_of_fmap
                (d & -> & [Hkd Hd]%list_elem_of_filter)%list_elem_of_fmap.
    simpl. apply Hagree; [done..|]. by rewrite Hkc, Hkd.
Qed.

(** X12 (consistent replicas).  When every time-series returned by the
    replicas is strictly increasing and any two of them with one key agree
    on the samples at shared timestamps, the samples that
    [queryIngesterStream] emits under a key are the same for every order in
    which the replica results arrive. *)
Theorem stream_consistent_order `{SeriesKey}
    (results results' : list QueryStreamResponse)
    (resp resp' : QueryStreamResponse) :
  results ≡ₚ results' → replicas_consistent results →
  queryIngesterStream results resp → queryIngesterStream results' resp' →
  ∀ e e', e ∈ Timeseries resp → e' ∈ Timeseries resp' →
    LabelsToKeyString (Labels e) = LabelsToKeyString (Labels e') →
    elems (Samples e) = elems (Samples e').
Proof.
  intros Hperm Hcons Hresp Hresp' e e' He He' Hkey.
  rewrite (output_samples _ _ _ Hresp He), (output_samples _ _ _ Hresp' He').
  rewrite <-Hkey. apply fold_merge_Permutation.
  - by apply samples_of_Permutation.
  - by apply replicas_consistent_key.
Qed.

Lemma queryIngesterStream_CD :
  @queryIngesterStream example_key [replicaC; replicaD] response_CD.
Proof.
  apply (queryIngesterStream_intro (H:=example_key) [replicaC; replicaD] []
           [(example_key up_labels,
             mkTimeSeries up_labels
               (Some [mkSample f1 100; mkSample f2 200; mkSample f3 300]))]).
  - unfold map_range, all_chunkseries. simpl. by rewrite map_to_list_empty.
  - unfold map_range, all_timeseries.
    cbn [mbind list_bind replicaC replicaD Timeseries app].
    rewrite (timeseries_fold_pair _ _ [mkSample f1 100; mkSample f2 200]) by done.
    by rewrite map_to_list_singleton.
Qed.

Lemma queryIngesterStream_DC :
  @queryIngesterStream example_key [replicaD; replicaC] response_CD.
Proof.
  apply (queryIngesterStream_intro (H:=example_key) [replicaD; replicaC] []
           [(example_key up_labels,
             mkTimeSeries up_labels
               (Some [mkSample f1 100; mkSample f2 200; mkSample f3 300]))]).
  - unfold map_range, all_chunkseries. simpl. by rewrite map_to_list_empty.
  - unfold map_range, all_timeseries.
    cbn [mbind list_bind replicaC replicaD Timeseries app].
    rewrite (timeseries_fold_pair _ _ [mkSample f2 200; mkSample f3 300]) by done.
    by rewrite map_to_list_singleton.
Qed.

Lemma replicas_consistent_CD :
  @replicas_consistent example_key [replicaC; replicaD].
Proof.
  assert (strictly_increasing [mkSample f1 100; mkSample f2 200]) as HC.
  { unfold strictly_increasing; simpl; repeat constructor; lia. }
  assert (strictly_increasing [mkSample f2 200; mkSample f3 300]) as HD.
  { unfold strictly_increasing; simpl; repeat constructor; lia. }
  assert (agree [mkSample f1 100; mkSample f2 200]
                [mkSample f2 200; mkSample f3 300]) as HCD.
  { intros sa sb Hsa Hsb Ht.
    repeat (apply elem_of_cons in Hsa as [->|Hsa]);
      repeat (apply elem_of_cons in Hsb as [->|Hsb]);
      try (by apply elem_of_nil in Hsa); try (by apply elem_of_nil in Hsb);
      simpl in Ht; try lia; done. }
  split; [by repeat constructor|].
  unfold all_timeseries. cbn [mbind list_bind replicaC replicaD Timeseries app].
  intros c d Hc Hd _.
  repeat (apply elem_of_cons in Hc as [->|Hc]);
    repeat (apply elem_of_cons in Hd as [->|Hd]);
    try (by apply elem_of_nil in Hc); try (by apply elem_of_nil in Hd); simpl.
  - by apply agree_refl.
  - done.
  - intros sa sb Hsa Hsb Ht. symmetry. apply (HCD sb sa); done.
  - by apply agree_refl.
Qed.

Lemma stream_consistent_order_witness :
  let e :=
    mkTimeSeries up_labels
      (Some [mkSample f1 100; mkSample f2 200; mkSample f3 300]) in
  e ∈ Timeseries response_CD ∧ elems (Samples e) = elems (Samples e).
Proof.
  split; [left|].
  apply (stream_consistent_order (H:=example_key)
           [replicaC; replicaD] [replicaD; replicaC] response_CD response_CD
           (perm_swap _ _ _) replicas_consistent_CD
           queryIngesterStream_CD queryIngesterStream_DC);
    [left..|reflexivity].
Defined.

(** ** Series with distinct identities, and the number of entries *)

Section stream_distinct.
Context `{SeriesKey}.

Lemma chunkseries_fold_fresh (cs : gmap string TimeSeriesChunk) l :
  NoDup ((LabelsToKeyString ∘ ChunkLabels) <$> l) →
  (∀ s, s ∈ l → cs !! LabelsToKeyString (ChunkLabels s) = None) →
  map_to_list (foldl chunkseries_step cs l)
    ≡ₚ map_to_list cs ++ ((λ s, (LabelsToKeyString (ChunkLabels s), s)) <$> l).
Proof.
  revert cs. induction l as [|x l IH]; intros cs Hnd Hfresh.
  { simpl. by rewrite app_nil_r. }
  rewrite fmap_cons in Hnd. apply NoDup_cons in Hnd as [Hx Hnd].
  cbn [foldl]. rewrite IH; [|done|].
  - unfold chunkseries_step. rewrite (Hfresh x) by left. simpl.
    rewrite map_to_list_insert by (apply Hfresh; left).
    destruct x as [xl xc]. simpl. by rewrite Permutation_middle.
  - intros s Hs. unfold chunkseries_step. rewrite lookup_insert_ne.
    + apply Hfresh. by right.
    + intros Heq. apply Hx. apply list_elem_of_fmap. by exists s.
Qed.

Lemma timeseries_fold_fresh (ts : gmap string TimeSeries) l :
  NoDup ((LabelsToKeyString ∘ Labels) <$> l) →
  (∀ s, s ∈ l → ts !! LabelsToKeyString (Labels s) = None) →
  map_to_list (foldl timeseries_merge ts l)
    ≡ₚ map_to_list ts ++ ((λ s, (LabelsToKeyString (Labels s), s)) <$> l).
Proof.
  revert ts. induction l as [|x l IH]; intros ts Hnd Hfresh.
  { simpl. by rewrite app_nil_r. }
  rewrite fmap_cons in Hnd. apply NoDup_cons in Hnd as [Hx Hnd].
  cbn [foldl]. rewrite IH; [|done|].
  - unfold timeseries_merge. rewrite (Hfresh x) by left. simpl.
    rewrite map_to_list_insert by (apply Hfresh; left).
    destruct x as [xl xs]. simpl. by rewrite Permutation_middle.
  - intros s Hs. unfold timeseries_merge. rewrite lookup_insert_ne.
    + apply Hfresh. by right.
    + intros Heq. apply Hx. apply list_elem_of_fmap. by exists s.
Qed.

Lemma chunkseries_fold_dom (cs : gmap string TimeSeriesChunk) l :
  dom (foldl chunkseries_step cs l) =
    dom cs ∪ list_to_set ((LabelsToKeyString ∘ ChunkLabels) <$> l).
Proof.
  revert cs. induction l as [|x l IH]; intros cs; simpl.
  { by rewrite (right_id_L ∅ (∪)). }
  rewrite IH. unfold chunkseries_step at 1. rewrite dom_insert_L.
  by rewrite (comm_L (∪) {[_]} (dom cs)), (assoc_L (∪)).
Qed.

Lemma timeseries_fold_dom (ts : gmap string TimeSeries) l :
  dom (foldl timeseries_merge ts l) =
    dom ts ∪ list_to_set ((LabelsToKeyString ∘ Labels) <$> l).
Proof.
  revert ts. induction l as [|x l IH]; intros ts; simpl.
  { by rewrite (right_id_L ∅ (∪)). }
  rewrite IH. unfold timeseries_merge at 1. rewrite dom_insert_L.
  by rewrite (comm_L (∪) {[_]} (dom ts)), (assoc_L (∪)).
Qed.
End stream_distinct.

(** Every order of series with distinct identities is a possible response. *)
Lemma queryIngesterStream_distinct `{SeriesKey}
    (results : list QueryStreamResponse) (oc : list TimeSeriesChunk)
    (ot : list TimeSeries) :
  NoDup ((LabelsToKeyString ∘ ChunkLabels) <$> all_chunkseries results) →
  NoDup ((LabelsToKeyString ∘ Labels) <$> all_timeseries results) →
  oc ≡ₚ all_chunkseries results → ot ≡ₚ all_timeseries results →
  queryIngesterStream results (mkQueryStreamResponse oc ot).
Proof.
  intros Hndc Hndt Hoc Hot.
  pose proof (queryIngesterStream_intro results
                ((λ s, (LabelsToKeyString (ChunkLabels s), s)) <$> oc)
                ((λ s, (LabelsToKeyString (Labels s), s)) <$> ot)) as Hintro.
  rewrite <-!list_fmap_compose, !list_fmap_id in Hintro. apply Hintro.
  - unfold map_range.
    rewrite chunkseries_fold_fresh, map_to_list_empty by done. simpl.
    by rewrite Hoc.
  - unfold map_range.
    rewrite timeseries_fold_fresh, map_to_list_empty by done. simpl.
    by rewrite Hot.
Qed.

Lemma example_keys_distinct : example_key up_labels ≠ example_key down_labels.
Proof. vm_compute. discriminate. Qed.

Lemma map_range_length `{Countable K} {V} (m : gmap K V) (order : list (K * V)) :
  map_range m order → length order.*2 = size (dom m).
Proof.
  unfold map_range. intros ->.
  by rewrite length_fmap, length_map_to_list, size_dom.
Qed.

(** X13 (distinct identities pass through).  In a response of
    [queryIngesterStream], when the chunk-series returned by the replicas
    have pairwise distinct keys, the labels and the chunk lists of the
    chunk-series entries are those of the chunk-series returned, entry by
    entry and up to order; likewise, the labels and the sample slices of the
    time-series entries are those of the time-series returned. *)
Theorem stream_distinct_pass_through `{SeriesKey}
    (results : list QueryStreamResponse) (resp : QueryStreamResponse) :
  queryIngesterStream results resp →
  (NoDup ((LabelsToKeyString ∘ ChunkLabels) <$> all_chunkseries results) →
   (λ e, (ChunkLabels e, Chunks e)) <$> Chunkseries resp
     ≡ₚ (λ s, (ChunkLabels s, Chunks s)) <$> all_chunkseries results) ∧
  (NoDup ((LabelsToKeyString ∘ Labels) <$> all_timeseries results) →
   (λ e, (Labels e, Samples e)) <$> Timeseries resp
     ≡ₚ (λ s, (Labels s, Samples s)) <$> all_timeseries results).
Proof.
  intros (oc & ot & Hoc & Hot & ->)%queryIngesterStream_inv. simpl.
  unfold map_range in Hoc, Hot. split; intros Hnd.
  - rewrite Hoc, chunkseries_fold_fresh, map_to_list_empty by done. simpl.
    by rewrite <-!list_fmap_compose.
  - rewrite Hot, timeseries_fold_fresh, map_to_list_empty by done. simpl.
    by rewrite <-!list_fmap_compose.
Qed.

(** X14 (number of entries).  A response of [queryIngesterStream] holds as
    many chunk-series entries as there are distinct keys among the
    chunk-series returned by the replicas, and as many time-series entries
    as there are distinct keys among the time-series returned; a class of
    the response is empty exactly when no replica returned a series of that
    class. *)
Theorem stream_entry_count `{SeriesKey}
    (results : list QueryStreamResponse) (resp : QueryStreamResponse) :
  queryIngesterStream results resp →
  length (Chunkseries resp) =
    size (list_to_set (C:=gset string)
            ((LabelsToKeyString ∘ ChunkLabels) <$> all_chunkseries results)) ∧
  length (Timeseries resp) =
    size (list_to_set (C:=gset string)
            ((LabelsToKeyString ∘ Labels) <$> all_timeseries results)) ∧
  (Chunkseries resp = [] ↔ all_chunkseries results = []) ∧
  (Timeseries resp = [] ↔ all_timeseries results = []).
Proof.
  intros (oc & ot & Hoc & Hot & ->)%queryIngesterStream_inv. simpl.
  pose proof (map_range_length _ _ Hoc) as Hlc.
  pose proof (map_range_length _ _ Hot) as Hlt.
  rewrite chunkseries_fold_dom, dom_empty_L, (left_id_L ∅ (∪)) in Hlc.
  rewrite timeseries_fold_dom, dom_empty_L, (left_id_L ∅ (∪)) in Hlt.
  split; [done|]. split; [done|].
  assert (∀ {A} (keyf : A → string) (out l : list A),
            length out = size (list_to_set (C:=gset string) (keyf <$> l)) →
            out = [] ↔ l = []) as Hempty.
  { intros A keyf out l Hlen. split.
    - intros ->. simpl in Hlen. symmetry in Hlen.
      apply size_empty_inv in Hlen. destruct l as [|x l]; [done|].
      exfalso. apply (not_elem_of_empty (C:=gset string) (keyf x)).
      apply Hlen. rewrite fmap_cons. set_solver.
    - intros ->. rewrite fmap_nil, list_to_set_nil, size_empty in Hlen.
      by apply length_zero_iff_nil. }
  split; eapply Hempty; eassumption.
Qed.

Lemma stream_distinct_pass_through_witness :
  (λ e, (ChunkLabels e, Chunks e)) <$> Chunkseries replicaE_swapped
    ≡ₚ (λ s, (ChunkLabels s, Chunks s)) <$> all_chunkseries [replicaE] ∧
  (λ e, (Labels e, Samples e)) <$> Timeseries replicaE_swapped
    ≡ₚ (λ s, (Labels s, Samples s)) <$> all_timeseries [replicaE].
Proof.
  assert (NoDup ((example_key ∘ ChunkLabels) <$> all_chunkseries [replicaE]))
    as Hndc.
  { simpl. apply NoDup_cons. split; [|apply NoDup_singleton].
    intros Hin%list_elem_of_singleton. by apply example_keys_distinct. }
  assert (NoDup ((example_key ∘ Labels) <$> all_timeseries [replicaE])) as Hndt.
  { simpl. apply NoDup_cons. split; [|apply NoDup_singleton].
    intros Hin%list_elem_of_singleton. by apply example_keys_distinct. }
  assert (@queryIngesterStream example_key [replicaE] replicaE_swapped) as Hresp.
  { apply (queryIngesterStream_distinct (H:=example_key) [replicaE]);
      [done..|apply perm_swap|apply perm_swap]. }
  destruct (stream_distinct_pass_through (H:=example_key) [replicaE]
              replicaE_swapped Hresp) as [Hc Ht].
  split; [by apply Hc|by apply Ht].
Defined.

Lemma stream_entry_count_witness :
  length (Chunkseries response_AB) =
    size (list_to_set (C:=gset string)
            ((example_key ∘ ChunkLabels) <$> all_chunkseries [replicaA; replicaB])) ∧
  length (Timeseries response_AB) =
    size (list_to_set (C:=gset string)
            ((example_key ∘ Labels) <$> all_timeseries [replicaA; replicaB])) ∧
  (Chunkseries response_AB = [] ↔ all_chunkseries [replicaA; replicaB] = []) ∧
  (Timeseries response_AB = [] ↔ all_timeseries [replicaA; replicaB] = []).
Proof.
  exact (stream_entry_count (H:=example_key) [replicaA; replicaB] response_AB
           queryIngesterStream_AB).
Defined.

(** ** The batch aggregator's entries *)

Section batch_entries.
Context `{BatchModel}.
Implicit Types (m : gmap N SampleStream) (ss : SampleStream).

Lemma matrix_fold_values m l fp :
  default [] (Values <$> foldl matrix_step m l !! fp) =
    foldl MergeSampleSets (default [] (Values <$> m !! fp))
      (Values <$> filter (λ ss, Fingerprint (StreamMetric ss) = fp) l).
Proof.
  revert m. induction l as [|x l IH]; intros m; [done|].
  cbn [foldl]. rewrite IH, filter_cons. unfold matrix_step at 1.
  case_decide as Hfp.
  - subst fp. rewrite lookup_insert_eq. simpl.
    by destruct (m !! Fingerprint (StreamMetric x)).
  - by rewrite lookup_insert_ne.
Qed.

Lemma matrix_fold_metric m l fp :
  StreamMetric <$> foldl matrix_step m l !! fp =
    match m !! fp with
    | Some mss => Some (StreamMetric mss)
    | None =>
        StreamMetric <$> head (filter (λ ss, Fingerprint (StreamMetric ss) = fp) l)
    end.
Proof.
  revert m. induction l as [|x l IH]; intros m.
  { simpl. by destruct (m !! fp). }
  cbn [foldl]. rewrite IH, filter_cons. unfold matrix_step at 1.
  case_decide as Hfp.
  - subst fp. rewrite lookup_insert_eq. simpl.
    by destruct (m !! Fingerprint (StreamMetric x)).
  - by rewrite lookup_insert_ne.
Qed.
End batch_entries.

(** X15 (entries of the batch matrix).  In a matrix of [queryIngesters],
    every sample stream carries the metric of the first stream received with
    its fingerprint, and its values are the fold of [util.MergeSampleSets],
    from the empty sequence, over the values of all streams received with
    that fingerprint, in order of arrival: streams whose metrics differ but
    whose fingerprints collide end up in one entry. *)
Theorem batch_entry `{BatchModel}
    (matrices : list (list SampleStream)) (result : list SampleStream) :
  queryIngesters matrices result →
  ∀ e, e ∈ result →
    let contributed :=
      filter (λ ss, Fingerprint (StreamMetric ss) = Fingerprint (StreamMetric e))
        (mjoin matrices) in
    (∃ first, head contributed = Some first ∧ StreamMetric e = StreamMetric first) ∧
    Values e = foldl MergeSampleSets [] (Values <$> contributed).
Proof.
  intros (order & Horder & ->) e [fp Hfp]%(map_range_elem_of _ _ _ Horder).
  cbv zeta. rewrite mergeMatrices_flat in Hfp.
  assert (Fingerprint (StreamMetric e) = fp) as ->.
  { eapply (matrix_fold_keyed ∅); [apply map_Forall_empty|done]. }
  split.
  - pose proof (matrix_fold_metric ∅ (mjoin matrices) fp) as Hm.
    rewrite Hfp, lookup_empty in Hm. simpl in Hm.
    destruct (head _) as [first|]; [|done]. exists first. split; [done|].
    simpl in Hm. congruence.
  - pose proof (matrix_fold_values ∅ (mjoin matrices) fp) as Hv.
    by rewrite Hfp, lookup_empty in Hv.
Qed.

Lemma batch_entry_witness :
  let e := mkSampleStream (H:=example_batch) up_labels [mkSample f1 100] in
  let contributed :=
    filter (λ ss, Fingerprint (BatchModel:=example_batch) (StreamMetric ss)
                  = Fingerprint (BatchModel:=example_batch) (StreamMetric e))
      (mjoin [matrixA; matrixB]) in
  (∃ first, head contributed = Some first ∧ StreamMetric e = StreamMetric first) ∧
  Values e = foldl (MergeSampleSets (BatchModel:=example_batch)) []
               (Values <$> contributed).
Proof.
  apply (batch_entry (H:=example_batch) [matrixA; matrixB] _ queryIngesters_AB).
  left.
Defined.

(** ** ReplicaSelector: metadata queries and routing *)

Lemma shuffleShardBlock_Some `{Collaborators} (d : Distributor) userID now r :
  shuffleShardBlock d userID now = Some r ↔
    (ShardingStrategy (cfg d) = ShardingStrategyShuffle ∧
     0 < IngestionTenantShardSize (limits d) userID ∧
     0 < ShuffleShardingLookbackPeriod (cfg d)) ∧
    r = GetReplicationSetForOperation
          (ShuffleShardWithLookback (ingestersRing d) userID
             (IngestionTenantShardSize (limits d) userID)
             (ShuffleShardingLookbackPeriod (cfg d)) now) Read.
Proof.
  unfold shuffleShardBlock. case_bool_decide as Hs; [|naive_solver].
  destruct (Z.gtb_spec (IngestionTenantShardSize (limits d) userID) 0);
    destruct (Z.gtb_spec (ShuffleShardingLookbackPeriod (cfg d)) 0); simpl;
    split; try (intros [=<-]; split; [repeat split; lia || done|done]);
    try done; try (intros [(?&?&?) _]; lia).
  by intros [_ ->].
Qed.

Lemma shuffleShardBlock_None `{Collaborators} (d : Distributor) userID now :
  shuffleShardBlock d userID now = None ↔
    ¬ (ShardingStrategy (cfg d) = ShardingStrategyShuffle ∧
       0 < IngestionTenantShardSize (limits d) userID ∧
       0 < ShuffleShardingLookbackPeriod (cfg d)).
Proof.
  destruct (shuffleShardBlock d userID now) as [r|] eqn:Hb.
  - apply shuffleShardBlock_Some in Hb as [Hcond _]. naive_solver.
  - split; [|done]. intros _ Hcond.
    assert (is_Some (shuffleShardBlock d userID now)) as [r Hr].
    { eexists. apply shuffleShardBlock_Some. eauto. }
    congruence.
Qed.

(** X16 (selection for metadata).  [GetIngestersForMetadata] fails with the
    error of the tenant resolution when there is no tenant; with a tenant it
    returns the read set of the tenant's shuffle shard when shuffle sharding
    is configured with a positive shard size and a positive lookback period,
    and the read set of the whole ring in every other case: it never asks the
    ring for a key. *)
Theorem GetIngestersForMetadata_strategy `{Collaborators}
    (d : Distributor) (ctx : Context_) (now : Z) :
  match ExtractOrgID ctx with
  | Failure err => GetIngestersForMetadata d ctx now = Failure err
  | Success userID =>
      let shardSize := IngestionTenantShardSize (limits d) userID in
      let lookbackPeriod := ShuffleShardingLookbackPeriod (cfg d) in
      let shuffle :=
        ShardingStrategy (cfg d) = ShardingStrategyShuffle ∧
        0 < shardSize ∧ 0 < lookbackPeriod in
      (shuffle →
       GetIngestersForMetadata d ctx now =
         GetReplicationSetForOperation
           (ShuffleShardWithLookback (ingestersRing d) userID shardSize
              lookbackPeriod now) Read) ∧
      (¬ shuffle →
       GetIngestersForMetadata d ctx now =
         GetReplicationSetForOperation (ingestersRing d) Read)
  end.
Proof.
  unfold GetIngestersForMetadata.
  destruct (ExtractOrgID ctx) as [userID|err]; [|done]. cbv zeta. split.
  - intros Hsh.
    by rewrite (proj2 (shuffleShardBlock_Some d userID now _) (conj Hsh eq_refl)).
  - intros Hno. by rewrite (proj2 (shuffleShardBlock_None d userID now) Hno).
Qed.

(** X17 (the two selectors).  [GetIngestersForQuery] returns what
    [GetIngestersForMetadata] returns, unless it takes the metric-name
    strategy: there is a tenant, shuffle sharding does not apply,
    shard-by-all-labels is off and the extracted metric-name matcher is an
    equality matcher. *)
Theorem GetIngestersForQuery_or_metadata `{Collaborators}
    (d : Distributor) (ctx : Context_) (now : Z) (matchers : list Matcher) :
  GetIngestersForQuery d ctx now matchers = GetIngestersForMetadata d ctx now ∨
  ∃ userID m,
    ExtractOrgID ctx = Success userID ∧
    ¬ (ShardingStrategy (cfg d) = ShardingStrategyShuffle ∧
       0 < IngestionTenantShardSize (limits d) userID ∧
       0 < ShuffleShardingLookbackPeriod (cfg d)) ∧
    ShardByAllLabels (cfg d) = false ∧
    MetricNameMatcherFromMatchers matchers = Some m ∧
    MatcherType m = MatchEqual ∧
    GetIngestersForQuery d ctx now matchers =
      Get (ingestersRing d) (shardByMetricName userID (MatcherValue m)) Read.
Proof.
  unfold GetIngestersForQuery, GetIngestersForMetadata.
  destruct (ExtractOrgID ctx) as [userID|err]; [|by left].
  destruct (shuffleShardBlock d userID now) as [r|] eqn:Hblock; [by left|].
  apply shuffleShardBlock_None in Hblock. unfold metricNameBlock.
  destruct (ShardByAllLabels (cfg d)) eqn:Hall; [by left|]. simpl.
  destruct (MetricNameMatcherFromMatchers matchers) as [m|] eqn:Hm; [|by left].
  destruct (MatcherType m) eqn:Hty; try by left.
  right. exists userID, m. rewrite Hty. done.
Qed.

(** X18 (what the selection depends on).  The reading of the clock matters
    to [GetIngestersForQuery] only when the shuffle-sharding strategy
    applies, and the matchers matter only through the metric-name matcher
    extracted from them, and not at all when shard-by-all-labels is on. *)
Theorem GetIngestersForQuery_dependence `{Collaborators}
    (d : Distributor) (ctx : Context_) (now now' : Z)
    (matchers matchers' : list Matcher) :
  ((∀ userID, ExtractOrgID ctx = Success userID →
      ¬ (ShardingStrategy (cfg d) = ShardingStrategyShuffle ∧
         0 < IngestionTenantShardSize (limits d) userID ∧
         0 < ShuffleShardingLookbackPeriod (cfg d))) →
   GetIngestersForQuery d ctx now matchers =
     GetIngestersForQuery d ctx now' matchers) ∧
  (MetricNameMatcherFromMatchers matchers =
     MetricNameMatcherFromMatchers matchers' →
   GetIngestersForQuery d ctx now matchers =
     GetIngestersForQuery d ctx now matchers') ∧
  (ShardByAllLabels (cfg d) = true →
   GetIngestersForQuery d ctx now matchers =
     GetIngestersForQuery d ctx now matchers').
Proof.
  unfold GetIngestersForQuery.
  destruct (ExtractOrgID ctx) as [userID|err]; [|done].
  split; [|split].
  - intros Hno. specialize (Hno userID eq_refl).
    by rewrite !(proj2 (shuffleShardBlock_None d userID _) Hno).
  - intros Hm. unfold metricNameBlock. by rewrite Hm.
  - intros Hall. unfold metricNameBlock. by rewrite Hall.
Qed.

Lemma GetIngestersForQuery_dependence_witness :
  @GetIngestersForQuery example_collaborators distributor_by_name
     (Some "tenant") 0 [name_is_up]
  = @GetIngestersForQuery example_collaborators distributor_by_name
     (Some "tenant") 1000 [name_is_up] ∧
  @GetIngestersForQuery example_collaborators distributor_by_name
     (Some "tenant") 0 [name_is_up]
  = @GetIngestersForQuery example_collaborators distributor_by_name
     (Some "tenant") 0 [name_is_up; mkMatcher MatchRegexp "job" "a.*"] ∧
  @GetIngestersForQuery example_collaborators distributor_all_labels
     (Some "tenant") 0 [name_is_up]
  = @GetIngestersForQuery example_collaborators distributor_all_labels
     (Some "tenant") 0 [].
Proof.
  split; [|split].
  - destruct (GetIngestersForQuery_dependence (H:=example_collaborators)
                distributor_by_name (Some "tenant") 0 1000 [name_is_up] [])
      as (Hnow & _ & _).
    apply Hnow. intros userID _ (Hs & _ & _). discriminate Hs.
  - destruct (GetIngestersForQuery_dependence (H:=example_collaborators)
                distributor_by_name (Some "tenant") 0 0 [name_is_up]
                [name_is_up; mkMatcher MatchRegexp "job" "a.*"])
      as (_ & Hmatcher & _).
    apply Hmatcher. reflexivity.
  - destruct (GetIngestersForQuery_dependence (H:=example_collaborators)
                distributor_all_labels (Some "tenant") 0 0 [name_is_up] [])
      as (_ & _ & Hall).
    apply Hall. reflexivity.
Defined.

Lemma GetIngestersForMetadata_strategy_witness :
  @GetIngestersForMetadata example_collaborators distributor_shuffle
     (Some "tenant") 0 = Success [1; 2]%nat ∧
  @GetIngestersForMetadata example_collaborators distributor_by_name
     (Some "tenant") 0 = Success [1; 2; 3]%nat ∧
  @GetIngestersForMetadata example_collaborators distributor_shuffle
     None 0 = Failure "no org id".
Proof.
  split; [|split].
  - pose proof (GetIngestersForMetadata_strategy (H:=example_collaborators)
                  distributor_shuffle (Some "tenant") 0) as [Hshuffle _].
    rewrite Hshuffle; [reflexivity|]. simpl. split; [reflexivity|lia].
  - pose proof (GetIngestersForMetadata_strategy (H:=example_collaborators)
                  distributor_by_name (Some "tenant") 0) as [_ Hfull].
    rewrite Hfull; [reflexivity|]. simpl. intros (Hs & _ & _). discriminate Hs.
  - exact (GetIngestersForMetadata_strategy (H:=example_collaborators)
             distributor_shuffle None 0).
Defined.

(** ** The per-replica callbacks *)

Section callback_facts.
Context `{FanoutModel}.

Lemma recvLoop_spec msgs term res addr c :
  recvLoop msgs term res addr c =
    match term with
    | None =>
        (Success (mkQueryStreamResponse
                    (Chunkseries res ++ (msgs ≫= Chunkseries))
                    (Timeseries res ++ (msgs ≫= Timeseries))), c)
    | Some err =>
        (Failure err,
         if negb (IsGRPCContextCanceled err) then incFailures addr c else c)
    end.
Proof.
  revert res. induction msgs as [|m msgs IH]; intros res.
  - simpl. destruct term; [done|]. rewrite !app_nil_r. by destruct res.
  - cbn [recvLoop]. rewrite IH. simpl.
    destruct term; [done|]. by rewrite <-!(assoc_L (++)).
Qed.

Lemma count_Inc_eq addr (c : gmap string nat) :
  count (Inc addr c) addr = S (count c addr).
Proof. unfold count at 1, Inc. by rewrite lookup_insert_eq. Qed.

Lemma count_Inc_ne addr a (c : gmap string nat) :
  a ≠ addr → count (Inc addr c) a = count c a.
Proof. intros Hne. unfold count, Inc. by rewrite lookup_insert_ne. Qed.

Lemma accounted_none addr c : accounted addr c c false.
Proof. split; [done|]. exists 0%nat, 0%nat. repeat split; lia || done. Qed.

Lemma accounted_query addr c succeeded :
  accounted addr c (incQueries addr c) succeeded.
Proof.
  split.
  - intros a Hne. simpl. by rewrite count_Inc_ne.
  - exists 1%nat, 0%nat. simpl. rewrite count_Inc_eq. repeat split; lia.
Qed.

Lemma accounted_failure addr c :
  accounted addr c (incFailures addr (incQueries addr c)) false.
Proof.
  split.
  - intros a Hne. simpl. by rewrite !count_Inc_ne.
  - exists 1%nat, 1%nat. simpl. rewrite !count_Inc_eq. repeat split; lia || done.
Qed.

Lemma accounted_counters_ok addr c c' succeeded :
  accounted addr c c' succeeded → counters_ok c → counters_ok c'.
Proof.
  intros [Hother (dq & df & Hq & Hf & Hle & _)] Hok a.
  destruct (decide (a = addr)) as [->|Hne].
  - rewrite Hq, Hf. specialize (Hok addr). lia.
  - destruct (Hother a Hne) as [-> ->]. apply Hok.
Qed.
End callback_facts.

(** X19 (a stream is drained).  When the pool yields a client, the stream
    opens and its messages end with end-of-stream, the callback of
    [queryIngesterStream] returns the chunk-series of all messages,
    concatenated in the order received, and likewise the time-series; it
    counts one query for the ingester and no failure. *)
Theorem queryStreamCallback_drains `{FanoutModel}
    (GetClientFor : string → result transport_error IngesterClient)
    (req : QueryRequest) (addr : string) (c : Counters)
    (client : IngesterClient) (stream : Stream) :
  GetClientFor addr = Success client →
  QueryStream client req = Success stream →
  terminal stream = None →
  queryStreamCallback GetClientFor req addr c =
    (Success (mkQueryStreamResponse
                (messages stream ≫= Chunkseries)
                (messages stream ≫= Timeseries)),
     incQueries addr c).
Proof.
  intros Hclient Hstream Hterm. unfold queryStreamCallback.
  by rewrite Hclient, Hstream, recvLoop_spec, Hterm.
Qed.

Lemma queryStreamCallback_drains_witness :
  queryStreamCallback (H0:=example_fanout) (λ _, Success example_client) ()
    "ingester-1" no_counts =
    (Success (mkQueryStreamResponse
                (all_chunkseries [replicaA; replicaB])
                (all_timeseries [replicaA; replicaB])),
     incQueries "ingester-1" no_counts).
Proof.
  exact (queryStreamCallback_drains (H0:=example_fanout)
           (λ _, Success example_client) () "ingester-1" no_counts
           example_client example_stream eq_refl eq_refl eq_refl).
Defined.

(** X20 (a broken stream yields nothing).  When the stream ends with an
    error, whatever was received before is dropped: the callback of
    [queryIngesterStream] returns that error and no response.  It counts one
    query for the ingester, and one failure unless the error is a gRPC
    context cancellation. *)
Theorem queryStreamCallback_aborts `{FanoutModel}
    (GetClientFor : string → result transport_error IngesterClient)
    (req : QueryRequest) (addr : string) (c : Counters)
    (client : IngesterClient) (stream : Stream) (err : transport_error) :
  GetClientFor addr = Success client →
  QueryStream client req = Success stream →
  terminal stream = Some err →
  queryStreamCallback GetClientFor req addr c =
    (Failure err,
     if IsGRPCContextCanceled err then incQueries addr c
     else incFailures addr (incQueries addr c)).
Proof.
  intros Hclient Hstream Hterm. unfold queryStreamCallback.
  rewrite Hclient, Hstream, recvLoop_spec, Hterm.
  by destruct (IsGRPCContextCanceled err).
Qed.

Lemma queryStreamCallback_aborts_witness :
  queryStreamCallback (H0:=example_fanout) (λ _, Success broken_client) ()
    "ingester-1" no_counts =
    (Failure "connection reset",
     incFailures "ingester-1" (incQueries "ingester-1" no_counts)).
Proof.
  exact (queryStreamCallback_aborts (H0:=example_fanout)
           (λ _, Success broken_client) () "ingester-1" no_counts
           broken_client broken_stream "connection reset"
           eq_refl eq_refl eq_refl).
Defined.

(** X21 (counters).  Each of the two callbacks leaves the counters of the
    other ingesters alone, counts at most one query and at most one failure
    for its ingester, never a failure without a query, and no failure and
    exactly one query when it succeeds; so no sequence of callbacks makes an
    ingester's failure counter exceed its query counter. *)
Theorem callbacks_accounted `{FanoutModel}
    (GetClientFor : string → result transport_error IngesterClient)
    (req : QueryRequest) (addr : string) (c : Counters) :
  let batch := queryCallback GetClientFor req addr c in
  let stream := queryStreamCallback GetClientFor req addr c in
  accounted addr c batch.2 (is_success batch.1) ∧
  accounted addr c stream.2 (is_success stream.1) ∧
  (counters_ok c → counters_ok batch.2 ∧ counters_ok stream.2).
Proof.
  cbv zeta.
  assert (accounted addr c (queryCallback GetClientFor req addr c).2
            (is_success (queryCallback GetClientFor req addr c).1)) as Hb.
  { unfold queryCallback.
    destruct (GetClientFor addr) as [client|err]; [|apply accounted_none].
    destruct (Query client req) as [resp|err]; simpl;
      [apply accounted_query|apply accounted_failure]. }
  assert (accounted addr c (queryStreamCallback GetClientFor req addr c).2
            (is_success (queryStreamCallback GetClientFor req addr c).1)) as Hs.
  { unfold queryStreamCallback.
    destruct (GetClientFor addr) as [client|err]; [|apply accounted_none].
    destruct (QueryStream client req) as [stream|err]; simpl;
      [|apply accounted_failure].
    rewrite recvLoop_spec. destruct (terminal stream) as [err|]; simpl;
      [|apply accounted_query].
    destruct (IsGRPCContextCanceled err); simpl;
      [apply accounted_query|apply accounted_failure]. }
  split; [done|]. split; [done|]. intros Hok.
  split; eapply accounted_counters_ok; eauto.
Qed.

Lemma callbacks_accounted_witness :
  counters_ok
    (queryCallback (H0:=example_fanout) (λ _, Success broken_client) ()
       "ingester-1" no_counts).2 ∧
  counters_ok
    (queryStreamCallback (H0:=example_fanout) (λ _, Success broken_client) ()
       "ingester-1" no_counts).2.
Proof.
  apply (callbacks_accounted (H0:=example_fanout)
           (λ _, Success broken_client) () "ingester-1" no_counts).
  intros addr. unfold count. simpl. by rewrite lookup_empty.
Defined.

(** * The order of arrival of the replica results *)

(** ** Every order of distinct fingerprints is a possible output *)

Section batch_order.
Context `{BatchModel}.
Implicit Types (m : gmap N SampleStream) (ss : SampleStream).




End batch_order.

(** ** ResultAggregator: the order of arrival *)








